(** * The credential lifecycle manager of src/auth/tokenManager.ts

    A shallow embedding of [TokenManager] and of its helpers
    ([TempFileManager], [FileLock], [withRetry]) together with the
    properties stated about them.

    Asynchronous methods are embedded as program trees ([Prog]): finite
    trees whose nodes are the synchronous state accesses of the method and
    its [await] points.  A tree is run either alone ([run]) or interleaved
    with other trees at its [await] points ([sys_run]). *)

From stdpp Require Import gmap strings list fin_maps pretty.
From Stdlib Require Import ZArith Lia.

Set Default Proof Using "Type".

(** ** JavaScript values *)

Set Warnings "-register-all".
(** A parsed JSON value.  Numbers are the integers (timestamps in
    milliseconds); an object is a finite map from property names. *)
Inductive json : Type :=
| JNull
| JBool (b : bool)
| JNum (z : Z)
| JStr (s : string)
| JArr (l : list json)
| JObj (m : gmap string json).
Set Warnings "+register-all".

(** A plain JavaScript object such as [Credentials]: an absent property
    reads as [undefined], here [None]. *)
Abbreviation object := (gmap string json).

(** ToBoolean; [None] is [undefined]. *)
Definition truthy (v : option json) : bool :=
  match v with
  | None | Some JNull => false
  | Some (JBool b) => b
  | Some (JNum z) => negb (z =? 0)%Z
  | Some (JStr s) => negb (String.eqb s "")
  | Some (JArr _) | Some (JObj _) => true
  end.

(** [a || b] *)
Definition js_or (a b : option json) : option json :=
  if truthy a then a else b.

(** [typeof v === "object"] *)
Definition typeof_object (v : json) : bool :=
  match v with
  | JNull | JArr _ | JObj _ => true
  | _ => false
  end.

(** The errors that are thrown or caught in the module. *)
Inductive error : Type :=
| ErrnoException (code : string)          (* a failed fs call *)
| Error (message : string)                (* new Error(message) *)
| SyntaxError                             (* JSON.parse *)
| TypeError                               (* property read on null *)
| GaxiosError (data_error : option string)(* response?.data?.error *)
| Undefined.                              (* throw of an unset variable *)

(** [error instanceof Error && "code" in error], with the code. *)
Definition error_code (e : error) : option string :=
  match e with
  | ErrnoException c => Some c
  | _ => None
  end.

Inductive result (A : Type) : Type :=
| Ok (a : A)
| Err (e : error).
Arguments Ok {A} a.
Arguments Err {A} e.

(** [v.name] for a token field name: [null.name] throws, an object reads
    its own property, every other value has no such property. *)
Definition get_field (v : json) (name : string) : result (option json) :=
  match v with
  | JNull => Err TypeError
  | JObj m => Ok (m !! name)
  | _ => Ok None
  end.

(** The own enumerable properties copied by [{...v}]. *)
Definition indexed (l : list json) : object :=
  list_to_map (imap (λ i x, (pretty i, x)) l).

Definition chars (s : string) : list json :=
  (λ c, JStr (String c EmptyString)) <$> String.list_ascii_of_string s.

Definition own_props (v : json) : object :=
  match v with
  | JObj m => m
  | JArr l => indexed l
  | JStr s => indexed (chars s)
  | _ => ∅
  end.

(** [{...a, ...b}]: the properties of [b] override those of [a]. *)
Definition spread (a b : object) : object := b ∪ a.

(** [!tokens || typeof tokens !== "object" || !tokens.access_token] *)
Definition invalid_format (tokens : json) : bool :=
  negb (truthy (Some tokens))
  || negb (typeof_object tokens)
  || negb (truthy (match get_field tokens "access_token" with
                   | Ok v => v
                   | Err _ => None       (* not read: [!tokens] holds *)
                   end)).

(** The text of a file.  [Json j] is the text [JSON.stringify] prints for
    [j]; [Garbage s] is a text [s] on which [JSON.parse] throws, the empty
    text of a freshly truncated file among them. *)
Inductive text : Type :=
| Json (j : json)
| Garbage (s : string).

Definition JSON_stringify (o : object) : text := Json (JObj o).

Definition JSON_parse (t : text) : result json :=
  match t with
  | Json j => Ok j
  | Garbage _ => Err SyntaxError
  end.

(** ** [Map]: a map that iterates in insertion order *)

Module JsMap.
Section ops.
Context {V : Type}.

Definition get (k : string) (m : list (string * V)) : option V :=
  snd <$> List.find (λ kv, bool_decide (kv.1 = k)) m.

Definition has (k : string) (m : list (string * V)) : bool :=
  bool_decide (is_Some (get k m)).

Fixpoint set (k : string) (v : V) (m : list (string * V))
  : list (string * V) :=
  match m with
  | [] => [(k, v)]
  | (k', v') :: m' =>
      if decide (k' = k) then (k, v) :: m' else (k', v') :: set k v m'
  end.

Definition delete (k : string) (m : list (string * V))
  : list (string * V) :=
  List.filter (λ kv, negb (bool_decide (kv.1 = k))) m.

Definition keys (m : list (string * V)) : list string := m.*1.

Definition size (m : list (string * V)) : nat := length m.

End ops.
End JsMap.

(** ** The state: environment, OAuth2 client and manager fields *)

(** The calls on the file system, with their outcome, in the order they
    were made (most recent first). *)
Inductive event : Type :=
| EvMkdir (dir : string) (ok : bool)
| EvAccess (path : string) (ok : bool)
| EvRead (path : string) (r : option text)
| EvOpen (path : string) (ok : bool)
| EvWrite (path : string) (data : text) (ok : bool)
| EvRename (src dst : string) (ok : bool)
| EvUnlink (path : string) (ok : bool)
| EvExists (path : string) (found : bool)
| EvExchange (ok : bool).

(** What is outside the process: the files of the token directory, the
    directories that exist, the clock, and three oracles.  [faults] is
    consumed one entry per file-system call: [Some code] makes that call
    fail with the error code and leave the files as they are, [None] (or
    an exhausted list) lets it run.  [entropy] gives the successive values
    of [Math.random().toString(36).substring(2)], [exchanges] the
    successive outcomes of the remote refresh exchange. *)
Record Env : Type := {
  files : gmap string text;
  dirs : gset string;
  clock : Z;
  faults : list (option string);
  entropy : list string;
  exchanges : list (result object);
  trace : list event;
}.

(** [oauth2Client]: its credentials, and whether a "tokens" listener is
    attached. *)
Record OAuth2Client : Type := {
  credentials : object;
  listening : bool;
}.

Inductive ShutdownPhase : Type :=
| RUNNING
| PREPARING
| FINALIZING
| COMPLETE.

Global Instance ShutdownPhase_eq_dec : EqDecision ShutdownPhase.
Proof. solve_decision. Defined.

(** The string value of the enum, as printed in messages. *)
Definition phase_name (p : ShutdownPhase) : string :=
  match p with
  | RUNNING => "running"
  | PREPARING => "preparing"
  | FINALIZING => "finalizing"
  | COMPLETE => "complete"
  end.

Inductive Status : Type :=
| pending
| in_progress
| completed
| failed.

(** [Operation<T>].  The [promise] field is the operation itself and is
    not stored in the state; the object is identified by its address in
    [heap]. *)
Record Operation : Type := {
  id : string;
  status : Status;
  resources : list string;
  startTime : Z;
}.

Record TempFileManager : Type := {
  tempFiles : list (string * string);   (* path -> operation id *)
}.

Record FileLock : Type := {
  locks : list (string * bool);
}.

(** The fields of [TokenManager].  [pendingOperations] maps an id to the
    address of an [Operation] object in [heap]; [tokenListener] is [true]
    while the field holds the listener and [false] when it is [null]. *)
Record TokenManager : Type := {
  oauth2Client : OAuth2Client;
  tokenPath : string;
  shutdownPhase : ShutdownPhase;
  pendingOperations : list (string * nat);
  heap : list Operation;
  tokenListener : bool;
  fileLock : FileLock;
  tempFileManager : TempFileManager;
}.

Record World : Type := {
  env : Env;
  this : TokenManager;
}.

(** Field updates. *)
Definition with_env (f : Env → Env) (w : World) : World :=
  {| env := f (env w); this := this w |}.

Definition with_this (f : TokenManager → TokenManager) (w : World) : World :=
  {| env := env w; this := f (this w) |}.

Definition set_files (v : gmap string text) (e : Env) : Env :=
  {| files := v; dirs := dirs e; clock := clock e; faults := faults e;
     entropy := entropy e; exchanges := exchanges e; trace := trace e |}.

Definition set_dirs (v : gset string) (e : Env) : Env :=
  {| files := files e; dirs := v; clock := clock e; faults := faults e;
     entropy := entropy e; exchanges := exchanges e; trace := trace e |}.

Definition set_clock (v : Z) (e : Env) : Env :=
  {| files := files e; dirs := dirs e; clock := v; faults := faults e;
     entropy := entropy e; exchanges := exchanges e; trace := trace e |}.

Definition set_faults (v : list (option string)) (e : Env) : Env :=
  {| files := files e; dirs := dirs e; clock := clock e; faults := v;
     entropy := entropy e; exchanges := exchanges e; trace := trace e |}.

Definition set_entropy (v : list string) (e : Env) : Env :=
  {| files := files e; dirs := dirs e; clock := clock e; faults := faults e;
     entropy := v; exchanges := exchanges e; trace := trace e |}.

Definition set_exchanges (v : list (result object)) (e : Env) : Env :=
  {| files := files e; dirs := dirs e; clock := clock e; faults := faults e;
     entropy := entropy e; exchanges := v; trace := trace e |}.

Definition log (ev : event) (e : Env) : Env :=
  {| files := files e; dirs := dirs e; clock := clock e; faults := faults e;
     entropy := entropy e; exchanges := exchanges e; trace := ev :: trace e |}.

Definition set_oauth2Client (v : OAuth2Client) (m : TokenManager)
  : TokenManager :=
  {| oauth2Client := v; tokenPath := tokenPath m;
     shutdownPhase := shutdownPhase m;
     pendingOperations := pendingOperations m; heap := heap m;
     tokenListener := tokenListener m; fileLock := fileLock m;
     tempFileManager := tempFileManager m |}.

Definition set_shutdownPhase (v : ShutdownPhase) (m : TokenManager)
  : TokenManager :=
  {| oauth2Client := oauth2Client m; tokenPath := tokenPath m;
     shutdownPhase := v;
     pendingOperations := pendingOperations m; heap := heap m;
     tokenListener := tokenListener m; fileLock := fileLock m;
     tempFileManager := tempFileManager m |}.

Definition set_pendingOperations (v : list (string * nat))
  (m : TokenManager) : TokenManager :=
  {| oauth2Client := oauth2Client m; tokenPath := tokenPath m;
     shutdownPhase := shutdownPhase m;
     pendingOperations := v; heap := heap m;
     tokenListener := tokenListener m; fileLock := fileLock m;
     tempFileManager := tempFileManager m |}.

Definition set_heap (v : list Operation) (m : TokenManager)
  : TokenManager :=
  {| oauth2Client := oauth2Client m; tokenPath := tokenPath m;
     shutdownPhase := shutdownPhase m;
     pendingOperations := pendingOperations m; heap := v;
     tokenListener := tokenListener m; fileLock := fileLock m;
     tempFileManager := tempFileManager m |}.

Definition set_tokenListener (v : bool) (m : TokenManager)
  : TokenManager :=
  {| oauth2Client := oauth2Client m; tokenPath := tokenPath m;
     shutdownPhase := shutdownPhase m;
     pendingOperations := pendingOperations m; heap := heap m;
     tokenListener := v; fileLock := fileLock m;
     tempFileManager := tempFileManager m |}.

Definition set_locks (v : list (string * bool)) (m : TokenManager)
  : TokenManager :=
  {| oauth2Client := oauth2Client m; tokenPath := tokenPath m;
     shutdownPhase := shutdownPhase m;
     pendingOperations := pendingOperations m; heap := heap m;
     tokenListener := tokenListener m; fileLock := {| locks := v |};
     tempFileManager := tempFileManager m |}.

Definition set_tempFiles (v : list (string * string)) (m : TokenManager)
  : TokenManager :=
  {| oauth2Client := oauth2Client m; tokenPath := tokenPath m;
     shutdownPhase := shutdownPhase m;
     pendingOperations := pendingOperations m; heap := heap m;
     tokenListener := tokenListener m; fileLock := fileLock m;
     tempFileManager := {| tempFiles := v |} |}.

(** [oauth2Client.setCredentials(tokens)] *)
Definition setCredentials (tokens : object) (w : World) : World :=
  with_this (λ m, set_oauth2Client
    {| credentials := tokens; listening := listening (oauth2Client m) |} m) w.

(** ** The awaited calls and what they do *)

(** What a method awaits.  [fs.writeFile] is not one call: it opens the
    file with flag "w", which creates or truncates it, and writes the data
    afterwards; [fs_open] and [fs_write] are its two halves.  [tick] is an
    [await] on a promise that is already settled, [settled_or_timeout] the
    race of the pending operations against a timer. *)
Inductive io : Type → Type :=
| fs_mkdir (dir : string) : io unit
| fs_access (path : string) : io unit
| fs_readFile (path : string) : io text
| fs_open (path : string) : io unit
| fs_write (path : string) (data : text) : io unit
| fs_rename (src dst : string) : io unit
| fs_unlink (path : string) : io unit
| setTimeout (ms : Z) : io unit
| tick : io unit
| refreshAccessToken : io object
| settled_or_timeout (ms : Z) : io unit.

Definition next_fault (e : Env) : option string * Env :=
  match faults e with
  | [] => (None, e)
  | f :: rest => (f, set_faults rest e)
  end.

Definition ENOENT : error := ErrnoException "ENOENT".

Definition do_mkdir (dir : string) (e : Env) : result unit * Env :=
  let (f, e) := next_fault e in
  match f with
  | Some code => (Err (ErrnoException code), log (EvMkdir dir false) e)
  | None => (Ok tt, log (EvMkdir dir true) (set_dirs ({[dir]} ∪ dirs e) e))
  end.

Definition do_access (path : string) (e : Env) : result unit * Env :=
  let (f, e) := next_fault e in
  match f with
  | Some code => (Err (ErrnoException code), log (EvAccess path false) e)
  | None =>
      match files e !! path with
      | Some _ => (Ok tt, log (EvAccess path true) e)
      | None => (Err ENOENT, log (EvAccess path false) e)
      end
  end.

Definition do_readFile (path : string) (e : Env) : result text * Env :=
  let (f, e) := next_fault e in
  match f with
  | Some code => (Err (ErrnoException code), log (EvRead path None) e)
  | None =>
      match files e !! path with
      | Some t => (Ok t, log (EvRead path (Some t)) e)
      | None => (Err ENOENT, log (EvRead path None) e)
      end
  end.

Definition do_open (path : string) (e : Env) : result unit * Env :=
  let (f, e) := next_fault e in
  match f with
  | Some code => (Err (ErrnoException code), log (EvOpen path false) e)
  | None =>
      (Ok tt, log (EvOpen path true)
                (set_files (<[path := Garbage ""]> (files e)) e))
  end.

Definition do_write (path : string) (data : text) (e : Env)
  : result unit * Env :=
  let (f, e) := next_fault e in
  match f with
  | Some code => (Err (ErrnoException code), log (EvWrite path data false) e)
  | None =>
      (Ok tt, log (EvWrite path data true)
                (set_files (<[path := data]> (files e)) e))
  end.

Definition do_rename (src dst : string) (e : Env) : result unit * Env :=
  let (f, e) := next_fault e in
  match f with
  | Some code => (Err (ErrnoException code), log (EvRename src dst false) e)
  | None =>
      match files e !! src with
      | Some t =>
          (Ok tt, log (EvRename src dst true)
                    (set_files (<[dst := t]> (delete src (files e))) e))
      | None => (Err ENOENT, log (EvRename src dst false) e)
      end
  end.

Definition do_unlink (path : string) (e : Env) : result unit * Env :=
  let (f, e) := next_fault e in
  match f with
  | Some code => (Err (ErrnoException code), log (EvUnlink path false) e)
  | None =>
      match files e !! path with
      | Some _ =>
          (Ok tt, log (EvUnlink path true)
                    (set_files (delete path (files e)) e))
      | None => (Err ENOENT, log (EvUnlink path false) e)
      end
  end.

(** The remote exchange answers with the next entry of [exchanges]; when
    none is left the request fails without a response. *)
Definition do_exchange (e : Env) : result object * Env :=
  match exchanges e with
  | [] => (Err (GaxiosError None), log (EvExchange false) e)
  | Ok tokens :: rest =>
      (Ok tokens, log (EvExchange true) (set_exchanges rest e))
  | Err err :: rest =>
      (Err err, log (EvExchange false) (set_exchanges rest e))
  end.

Definition on_env {X : Type} (f : Env → X * Env) (w : World) : X * World :=
  let (x, e) := f (env w) in (x, {| env := e; this := this w |}).

Definition exec {X : Type} (c : io X) : World → result X * World :=
  match c in io X return World → result X * World with
  | fs_mkdir dir => on_env (do_mkdir dir)
  | fs_access path => on_env (do_access path)
  | fs_readFile path => on_env (do_readFile path)
  | fs_open path => on_env (do_open path)
  | fs_write path data => on_env (do_write path data)
  | fs_rename src dst => on_env (do_rename src dst)
  | fs_unlink path => on_env (do_unlink path)
  | setTimeout ms => on_env (λ e, (Ok tt, set_clock (clock e + ms)%Z e))
  | tick => λ w, (Ok tt, w)
  | refreshAccessToken => on_env do_exchange
  | settled_or_timeout _ => λ w, (Ok tt, w)
  end.

(** ** Program trees *)

(** The body of a method.  [L] is the type of the mutable local variables
    that its [catch] handlers read ([tempTokenPath]).  [Sync] is a
    synchronous access to the state, [Local] one to the local variables,
    [Await] an [await]; [Spawn p k] leaves the promise [p] to run on its
    own and goes on with [k]. *)
Inductive Prog (L A : Type) : Type :=
| Ret (a : A)
| Throw (e : error)
| Sync {X : Type} (f : World → X * World) (k : X → Prog L A)
| Local {X : Type} (f : L → X * L) (k : X → Prog L A)
| Await {X : Type} (c : io X) (k : result X → Prog L A)
| Spawn (p : Prog unit unit) (k : Prog L A).
Arguments Ret {L A} a.
Arguments Throw {L A} e.
Arguments Sync {L A X} f k.
Arguments Local {L A X} f k.
Arguments Await {L A X} c k.
Arguments Spawn {L A} p k.

Fixpoint bind {L A B : Type} (m : Prog L A) (f : A → Prog L B) : Prog L B :=
  match m with
  | Ret a => f a
  | Throw e => Throw e
  | Sync g k => Sync g (λ x, bind (k x) f)
  | Local g k => Local g (λ x, bind (k x) f)
  | Await c k => Await c (λ r, bind (k r) f)
  | Spawn p k => Spawn p (bind k f)
  end.

Declare Scope prog_scope.
Delimit Scope prog_scope with prog.
Bind Scope prog_scope with Prog.
Notation "x <- m ;; k" := (bind m (λ x, k))
  (at level 100, m at next level, k at level 200, right associativity,
   only parsing) : prog_scope.
Notation "m ;; k" := (bind m (λ _, k))
  (at level 100, k at level 200, right associativity, only parsing)
  : prog_scope.
Local Open Scope prog_scope.

(** [try { m } catch (e) { h e }] *)
Fixpoint try_catch {L A : Type} (m : Prog L A) (h : error → Prog L A)
  : Prog L A :=
  match m with
  | Ret a => Ret a
  | Throw e => h e
  | Sync g k => Sync g (λ x, try_catch (k x) h)
  | Local g k => Local g (λ x, try_catch (k x) h)
  | Await c k => Await c (λ r, try_catch (k r) h)
  | Spawn p k => Spawn p (try_catch k h)
  end.

(** [try { m } finally { fin }] *)
Fixpoint try_finally {L A : Type} (m : Prog L A) (fin : Prog L unit)
  : Prog L A :=
  match m with
  | Ret a => bind fin (λ _, Ret a)
  | Throw e => bind fin (λ _, Throw e)
  | Sync g k => Sync g (λ x, try_finally (k x) fin)
  | Local g k => Local g (λ x, try_finally (k x) fin)
  | Await c k => Await c (λ r, try_finally (k r) fin)
  | Spawn p k => Spawn p (try_finally k fin)
  end.

(** A call of a method whose local variables start as [l]: the callee's
    locals are not those of the caller. *)
Fixpoint frame {L L' A : Type} (l : L) (m : Prog L A) : Prog L' A :=
  match m with
  | Ret a => Ret a
  | Throw e => Throw e
  | Sync g k => Sync g (λ x, frame l (k x))
  | Local g k => let (x, l') := g l in frame l' (k x)
  | Await c k => Await c (λ r, frame l (k r))
  | Spawn p k => Spawn p (frame l k)
  end.

(** Calling an async function runs it up to its first [await] and hands
    the promise, the rest of the tree, to the caller. *)
Fixpoint start {L A B : Type} (operation : Prog L A)
  (k : Prog L A → Prog L B) : Prog L B :=
  match operation with
  | Sync g k' => Sync g (λ x, start (k' x) k)
  | Local g k' => Local g (λ x, start (k' x) k)
  | Spawn p k' => Spawn p (start k' k)
  | _ => k operation
  end.

(** The promise with its value dropped. *)
Definition void {L A : Type} (m : Prog L A) : Prog L unit :=
  bind m (λ _, Ret tt).

(** State accesses as one-node trees. *)
Definition gets {L X : Type} (f : World → X) : Prog L X :=
  Sync (λ w, (f w, w)) Ret.

Definition modify {L : Type} (f : World → World) : Prog L unit :=
  Sync (λ w, (tt, f w)) Ret.

Definition await {L X : Type} (c : io X) : Prog L X :=
  Await c (λ r, match r with Ok x => Ret x | Err e => Throw e end).

Definition get_local {L : Type} : Prog L L := Local (λ l, (l, l)) Ret.

Definition set_local {L : Type} (l : L) : Prog L unit :=
  Local (λ _, (tt, l)) Ret.

(** [Date.now()] *)
Definition Date_now {L : Type} : Prog L Z := gets (λ w, clock (env w)).

(** ** Running a tree *)

(** One operation alone, up to the settlement of its own promise.  A
    promise left behind by [Spawn] is not followed: nothing resumes it in
    a run of one operation. *)
Fixpoint eval {L A : Type} (m : Prog L A) (l : L) (w : World)
  : result A * L * World :=
  match m with
  | Ret a => (Ok a, l, w)
  | Throw e => (Err e, l, w)
  | Sync f k => let (x, w') := f w in eval (k x) l w'
  | Local f k => let (x, l') := f l in eval (k x) l' w
  | Await c k => let (r, w') := exec c w in eval (k r) l w'
  | Spawn p k => eval k l w
  end.

Definition run {A : Type} (m : Prog unit A) (w : World) : result A * World :=
  let '(r, _, w') := eval m tt w in (r, w').

(** The synchronous prefix of a tree: everything up to the first [await]
    or the end, with the promises it left behind. *)
Fixpoint settle {L A : Type} (m : Prog L A) (l : L) (w : World)
  : Prog L A * L * World * list (Prog unit unit) :=
  match m with
  | Sync f k => let (x, w') := f w in settle (k x) l w'
  | Local f k => let (x, l') := f l in settle (k x) l' w
  | Spawn p k => let '(m', l', w', ps) := settle k l w in (m', l', w', p :: ps)
  | _ => (m, l, w, [])
  end.

(** Several operations in flight.  Each task is suspended at an [await]
    or finished. *)
Record Sys : Type := {
  world : World;
  tasks : list (Prog unit unit);
}.

Inductive action : Type :=
| Invoke (p : Prog unit unit)     (* a caller starts an operation *)
| Resume (i : nat).               (* the awaited call of task [i] returns *)

Definition sys_step (a : action) (s : Sys) : Sys :=
  match a with
  | Invoke p =>
      let '(p', _, w', ps) := settle p tt (world s) in
      {| world := w'; tasks := tasks s ++ p' :: ps |}
  | Resume i =>
      match tasks s !! i with
      | Some (Await c k) =>
          let (r, w1) := exec c (world s) in
          let '(p', _, w2, ps) := settle (k r) tt w1 in
          {| world := w2; tasks := <[i := p']> (tasks s) ++ ps |}
      | _ => s
      end
  end.

Definition sys_run (schedule : list action) (s : Sys) : Sys :=
  foldl (λ s a, sys_step a s) s schedule.

(** A task that still awaits something. *)
Definition in_flight (p : Prog unit unit) : bool :=
  match p with
  | Await _ _ => true
  | _ => false
  end.

(** ** Weakest preconditions *)

(** [wp G R O m Q l w0 w]: the tree [m], entered in world [w] with locals
    [l], ends in a state that satisfies [Q].  [w0] is the world in which
    the current synchronous stretch began.  At an [await] the stretch
    must have kept [G w0 w]; the awaited call is then made in any world
    [w'] that the other operations may have left, [R w w'].  A promise
    that is left behind must satisfy [O]. *)
Section wp.
Variables (G R : World → World → Prop) (O : Prog unit unit → Prop).

Fixpoint wp {L A : Type} (m : Prog L A)
  (Q : result A → L → World → World → Prop) (l : L) (w0 w : World) : Prop :=
  match m with
  | Ret a => Q (Ok a) l w0 w
  | Throw e => Q (Err e) l w0 w
  | Sync f k => wp (k (f w).1) Q l w0 (f w).2
  | Local f k => wp (k (f l).1) Q (f l).2 w0 w
  | Await c k =>
      G w0 w ∧ ∀ w', R w w' → wp (k (exec c w').1) Q l w' (exec c w').2
  | Spawn p k => O p ∧ wp k Q l w0 w
  end.
End wp.

(** The same for the synchronous prefix that a call runs at once: [P]
    receives the promise that is left, the tree from its first [await]
    on. *)
Fixpoint wps {L A : Type} (O : Prog unit unit → Prop) (m : Prog L A)
  (P : Prog L A → L → World → Prop) (l : L) (w : World) : Prop :=
  match m with
  | Sync f k => wps O (k (f w).1) P l (f w).2
  | Local f k => wps O (k (f l).1) P (f l).2 w
  | Spawn p k => O p ∧ wps O k P l w
  | _ => P m l w
  end.

(** One operation alone: nothing happens at its awaits. *)
Abbreviation alone := (wp (λ _ _, True) eq (λ _, True)).

(** ** The helpers: [TempFileManager], [FileLock], [withRetry] *)

Section TokenManager.

(** [path.dirname] of the Node library. *)
Variable dirname : string → string.

Context {L : Type}.

(** [Math.random().toString(36).substring(2)] *)
Definition Math_random : Prog L string :=
  Sync (λ w, match entropy (env w) with
             | [] => ("", w)
             | r :: rest => (r, with_env (set_entropy rest) w)
             end) Ret.

Definition createTempFile (baseFile operationId : string) : Prog L string :=
  now <- Date_now;;
  r <- Math_random;;
  let tempPath := baseFile +:+ "." +:+ pretty now +:+ "." +:+ r +:+ ".tmp" in
  modify (with_this (λ m,
    set_tempFiles (JsMap.set tempPath operationId
                     (tempFiles (tempFileManager m))) m));;
  Ret tempPath.

Definition isTemporaryFile (path : string) : Prog L bool :=
  gets (λ w, JsMap.has path (tempFiles (tempFileManager (this w)))).

Definition releaseTemporaryFile (path : string) : Prog L unit :=
  modify (with_this (λ m,
    set_tempFiles (JsMap.delete path (tempFiles (tempFileManager m))) m)).

Fixpoint cleanup_each (tempPaths : list string) : Prog L unit :=
  match tempPaths with
  | [] => Ret tt
  | tempPath :: rest =>
      try_catch
        (Await (fs_access tempPath) (λ r,
           match r with
           | Ok _ => await (fs_unlink tempPath)
           | Err _ => Ret tt      (* File doesn't exist, skip *)
           end);;
         releaseTemporaryFile tempPath)
        (λ _, Ret tt);;
      cleanup_each rest
  end.

Definition cleanupAllTemporaryFiles : Prog L unit :=
  tempPaths <- gets (λ w, JsMap.keys (tempFiles (tempFileManager (this w))));;
  cleanup_each tempPaths.

(** The loop of [FileLock.acquire].  Every turn that finds the lock taken
    sleeps 100 ms, so the condition on the clock ends the loop after at
    most [timeout / 100] sleeps; [polls] counts the sleeps that are left. *)
Fixpoint acquire_poll (polls : nat) (filePath : string)
  (startTime timeout : Z) : Prog L bool :=
  now <- Date_now;;
  if (now - startTime <? timeout)%Z then
    held <- gets (λ w, JsMap.has filePath (locks (fileLock (this w))));;
    if negb held then
      modify (with_this (λ m,
        set_locks (JsMap.set filePath true (locks (fileLock m))) m));;
      Ret true
    else
      match polls with
      | O => Ret false
      | S polls' =>
          await (setTimeout 100);;
          acquire_poll polls' filePath startTime timeout
      end
  else Ret false.

Definition acquire (filePath : string) (timeout : Z) : Prog L bool :=
  startTime <- Date_now;;
  acquire_poll (Z.to_nat (timeout / 100)) filePath startTime timeout.

Definition release (filePath : string) : Prog L unit :=
  modify (with_this (λ m,
    set_locks (JsMap.delete filePath (locks (fileLock m))) m)).

Definition withLock {T : Type} (filePath : string) (operation : Prog L T)
  : Prog L T :=
  lockAcquired <- acquire filePath 5000;;
  await tick;;
  if negb lockAcquired then
    Throw (Error ("Failed to acquire lock for " +:+ filePath))
  else
    try_finally operation (release filePath).

(** The loop of [withRetry]; [remaining] is [retries - attempt]. *)
Fixpoint withRetry_from {T : Type} (operation : Prog L T)
  (remaining : nat) (delay : Z) (lastError : error) : Prog L T :=
  match remaining with
  | O => Throw lastError
  | S remaining' =>
      try_catch operation (λ error,
        (* Skip delay on last attempt *)
        (if decide (remaining' ≠ O) then await (setTimeout delay)
         else Ret tt);;
        withRetry_from operation remaining' delay error)
  end.

Definition withRetry {T : Type} (operation : Prog L T) (retries : nat)
  : Prog L T :=
  withRetry_from operation retries 300 Undefined.

(** [fs.writeFile(path, data, { mode: 0o600 })] *)
Definition fs_writeFile (path : string) (data : text) : Prog L unit :=
  await (fs_open path);;
  await (fs_write path data).

(** [fs.access(path).then(() => true).catch(() => false)] *)
Definition exists_ (path : string) : Prog L bool :=
  try_catch (await (fs_access path);; Ret true) (λ _, Ret false).

(** [JSON.parse(fileContent)] *)
Definition parse (fileContent : text) : Prog L json :=
  match JSON_parse fileContent with
  | Ok j => Ret j
  | Err e => Throw e
  end.

(** ** [TokenManager] *)

Definition get_phase : Prog L ShutdownPhase :=
  gets (λ w, shutdownPhase (this w)).

Definition set_phase (p : ShutdownPhase) : Prog L unit :=
  modify (with_this (set_shutdownPhase p)).

Definition get_tokenPath : Prog L string :=
  gets (λ w, tokenPath (this w)).

Definition get_credentials : Prog L object :=
  gets (λ w, credentials (oauth2Client (this w))).

Definition removeTokenListener : Prog L unit :=
  listener <- gets (λ w, tokenListener (this w));;
  if listener then
    modify (with_this (λ m,
      set_tokenListener false
        (set_oauth2Client
           {| credentials := credentials (oauth2Client m);
              listening := false |} m)))
  else Ret tt.

Definition ensureTokenDirectoryExists : Prog L unit :=
  try_catch
    (tokenPath <- get_tokenPath;;
     let dir := dirname tokenPath in
     await (fs_mkdir dir))
    (λ error,
       (* Ignore errors if directory already exists, re-throw others *)
       match error_code error with
       | Some code =>
           if decide (code ≠ "EEXIST") then Throw error else Ret tt
       | None => Ret tt
       end).

(** The cleanup at the end of [waitForPendingOperations], over the
    entries the map held when the loop was entered. *)
Fixpoint release_resources (rs : list string) : Prog L unit :=
  match rs with
  | [] => Ret tt
  | resource :: rest =>
      temporary <- isTemporaryFile resource;;
      (if temporary then
         releaseTemporaryFile resource;;
         try_catch (await (fs_unlink resource)) (λ _, Ret tt)
       else Ret tt);;
      release_resources rest
  end.

Fixpoint release_each (entries : list (string * nat)) : Prog L unit :=
  match entries with
  | [] => Ret tt
  | (_, op) :: rest =>
      rs <- gets (λ w, match heap (this w) !! op with
                      | Some o => resources o
                      | None => []
                      end);;
      release_resources rs;;
      release_each rest
  end.

Definition waitForPendingOperations (timeout : Z) : Prog L unit :=
  size <- gets (λ w, JsMap.size (pendingOperations (this w)));;
  if decide (size = O) then Ret tt
  else
    (* Wait for all operations or timeout *)
    await (settled_or_timeout timeout);;
    entries <- gets (λ w, pendingOperations (this w));;
    if decide (JsMap.size entries ≠ O) then release_each entries
    else Ret tt.

Definition markAsShuttingDown : Prog L unit :=
  phase <- get_phase;;
  (* Skip if already in shutdown *)
  if decide (phase ≠ RUNNING) then Ret tt
  else
    set_phase PREPARING;;
    removeTokenListener;;
    waitForPendingOperations 3000;;
    set_phase FINALIZING;;
    cleanupAllTemporaryFiles;;
    set_phase COMPLETE.

End TokenManager.

Section Methods.

Variable dirname : string → string.

(** [this.pendingOperations.delete(id)] *)
Definition pending_delete (id : string) : Prog unit unit :=
  modify (with_this (λ m,
    set_pendingOperations (JsMap.delete id (pendingOperations m)) m)).

(** [op.status = s] on the object at address [op]. *)
Definition set_status (op : nat) (s : Status) : Prog unit unit :=
  modify (with_this (λ m,
    set_heap (alter (λ o, {| id := id o; status := s;
                             resources := resources o;
                             startTime := startTime o |}) op (heap m)) m)).

(** A new [Operation] object; its address is returned. *)
Definition new_operation (o : Operation) : Prog unit nat :=
  Sync (λ w, (length (heap (this w)),
              with_this (λ m, set_heap (heap m ++ [o]) m) w)) Ret.

Definition shutting_down (id : string) (phase : ShutdownPhase) : error :=
  Error ("Cannot start new operations during shutdown phase: "
           +:+ phase_name phase).

(** [registerOperation(id, operation, resources)].  [operation] is a
    promise: the method it comes from has already run up to its first
    await.  When the operation is rejected the promise stays as it is,
    with nobody awaiting it.  The handlers of [then] and [catch] run in a
    later turn than the one that settles [operation]. *)
Definition registerOperation {T : Type} (id : string)
  (operation : Prog unit T) (resources : list string) : Prog unit T :=
  phase <- get_phase;;
  (* Don't register new operations if shutting down *)
  if decide (phase ≠ RUNNING) then
    Spawn (void operation) (Throw (shutting_down id phase))
  else
    now <- Date_now;;
    op <- new_operation {| id := id; status := pending;
                           resources := resources; startTime := now |};;
    (* Update status when operation starts *)
    set_status op in_progress;;
    modify (with_this (λ m,
      set_pendingOperations (JsMap.set id op (pendingOperations m)) m));;
    try_catch
      (result <- operation;;
       await tick;;
       set_status op completed;;
       pending_delete id;;
       Ret result)
      (λ error,
       await tick;;
       set_status op failed;;
       pending_delete id;;
       Throw error).

(** The value of [tempTokenPath!] where a path is required. *)
Definition the_tempTokenPath : Prog (option string) string :=
  tempTokenPath <- get_local;;
  match tempTokenPath with
  | Some path => Ret path
  | None => Throw TypeError
  end.

(** [if (tempTokenPath) { release; tempTokenPath = null }] *)
Definition release_tempTokenPath : Prog (option string) unit :=
  tempTokenPath <- get_local;;
  match tempTokenPath with
  | Some path => releaseTemporaryFile path;; set_local None
  | None => Ret tt
  end.

(** The last handler of [saveTokensInternal] and of
    [refreshTokensInternal]: clean up the temp file if it still exists,
    and throw the error again. *)
Definition cleanup_and_rethrow (error : error) : Prog (option string) unit :=
  tempTokenPath <- get_local;;
  match tempTokenPath with
  | Some path =>
      try_catch
        (tempExists <- exists_ path;;
         (if tempExists then await (fs_unlink path) else Ret tt);;
         releaseTemporaryFile path)
        (λ _, Ret tt)
  | None => Ret tt
  end;;
  Throw error.

(** The copy approach taken when the rename has failed. *)
Definition copy_approach (tokens : object) : Prog (option string) unit :=
  try_catch
    (tempTokenPath <- the_tempTokenPath;;
     tokenPath <- get_tokenPath;;
     (* Check if temp file still exists *)
     tempExists <- exists_ tempTokenPath;;
     (if negb tempExists then
        (* Write directly to the final file if temp is gone *)
        fs_writeFile tokenPath (JSON_stringify tokens)
      else
        (* Read the temp file content and write to final file *)
        tempContent <- await (fs_readFile tempTokenPath);;
        fs_writeFile tokenPath tempContent;;
        (* Try to delete the temp file *)
        try_catch (await (fs_unlink tempTokenPath)) (λ _, Ret tt));;
     release_tempTokenPath)
    (λ copyError, Throw copyError).

(** Rename with retries, then the copy approach. *)
Definition rename_or_copy (tokens : object) : Prog (option string) unit :=
  try_catch
    (tempTokenPath <- the_tempTokenPath;;
     tokenPath <- get_tokenPath;;
     withRetry (await (fs_rename tempTokenPath tokenPath)) 3;;
     release_tempTokenPath)
    (λ renameError, copy_approach tokens).

(** [{ ...currentTokens, ...newTokens, refresh_token:
       newTokens.refresh_token || currentTokens.refresh_token }].  The
    right operand of [||] is read only when the left one is falsy; a
    property whose value is [undefined] is not printed by
    [JSON.stringify] and is left out. *)
Definition merge_tokens (currentTokens : json) (newTokens : object)
  : result object :=
  let merged := spread (own_props currentTokens) newTokens in
  if truthy (newTokens !! "refresh_token") then
    Ok merged
  else
    match get_field currentTokens "refresh_token" with
    | Err e => Err e
    | Ok (Some v) => Ok (<["refresh_token" := v]> merged)
    | Ok None => Ok (delete "refresh_token" merged)
    end.

(** The part of [refreshTokensInternal] that runs under the lock. *)
Definition refresh_locked (newTokens : object) : Prog (option string) unit :=
  phase <- get_phase;;
  if decide (phase ≠ RUNNING) then Ret tt
  else
    tokenPath <- get_tokenPath;;
    (* First try to load existing tokens if they exist *)
    updatedTokens <-
      try_catch
        (ensureTokenDirectoryExists dirname;;
         fileExists <- exists_ tokenPath;;
         if fileExists then
           fileContent <- await (fs_readFile tokenPath);;
           currentTokens <- parse fileContent;;
           (* Merge tokens, preserving the refresh token if not in new
              tokens *)
           match merge_tokens currentTokens newTokens with
           | Ok merged => Ret merged
           | Err e => Throw e
           end
         else Ret newTokens)
        (λ readError,
         (* If reading fails, just use the new tokens *)
         Ret newTokens);;
    phase <- get_phase;;
    if decide (phase ≠ RUNNING) then Ret tt
    else
      tempTokenPath <- the_tempTokenPath;;
      withRetry (fs_writeFile tempTokenPath (JSON_stringify updatedTokens)) 3;;
      (* Verify the file was written correctly *)
      try_catch
        (tempTokenPath <- the_tempTokenPath;;
         fileContent <- await (fs_readFile tempTokenPath);;
         parsedTokens <- parse fileContent;;
         if negb (truthy (Some parsedTokens))
            || negb (typeof_object parsedTokens)
         then Throw (Error "Token verification failed during auto-refresh")
         else Ret tt)
        (λ verifyError,
         (* Release the temp file tracking before unlinking *)
         tempTokenPath <- get_local;;
         match tempTokenPath with
         | Some path => releaseTemporaryFile path
         | None => Ret tt
         end;;
         (* Try to clean up the temp file *)
         try_catch
           (tempTokenPath <- the_tempTokenPath;;
            try_catch (await (fs_unlink tempTokenPath)) (λ _, Ret tt))
           (λ unlinkError, Ret tt);;
         Throw verifyError);;
      (* Final shutdown check before rename *)
      phase <- get_phase;;
      if decide (phase ≠ RUNNING) then Ret tt
      else rename_or_copy updatedTokens.

Definition refreshTokensInternal (newTokens : object)
  : Prog (option string) unit :=
  phase <- get_phase;;
  if decide (phase ≠ RUNNING) then Ret tt
  else
    now <- Date_now;;
    let operationId := "token-refresh-" +:+ pretty now in
    try_catch
      (tokenPath <- get_tokenPath;;
       tempTokenPath <- createTempFile tokenPath operationId;;
       await tick;;
       set_local (Some tempTokenPath);;
       withLock tokenPath (refresh_locked newTokens))
      cleanup_and_rethrow.

(** The part of [saveTokensInternal] that runs under the lock. *)
Definition save_locked (tokens : object) : Prog (option string) unit :=
  phase <- get_phase;;
  if decide (phase ≠ RUNNING) then Ret tt
  else
    tempTokenPath <- the_tempTokenPath;;
    withRetry (fs_writeFile tempTokenPath (JSON_stringify tokens)) 3;;
    (* Verify the file was written correctly *)
    try_catch
      (tempTokenPath <- the_tempTokenPath;;
       fileContent <- await (fs_readFile tempTokenPath);;
       parsedTokens <- parse fileContent;;
       (* Ensure the tokens were written correctly *)
       if invalid_format parsedTokens
       then Throw (Error "Token verification failed, invalid token format")
       else
         (* Final shutdown check before rename *)
         phase <- get_phase;;
         if decide (phase ≠ RUNNING) then Ret tt
         else
           rename_or_copy tokens;;
           (* Set the tokens in the OAuth client *)
           modify (setCredentials tokens))
      (λ verifyError,
       (* Remove the temp file if verification failed *)
       tempTokenPath <- get_local;;
       match tempTokenPath with
       | Some path =>
           try_catch
             (await (fs_unlink path);;
              releaseTemporaryFile path;;
              set_local None)
             (λ unlinkError, Ret tt)
       | None => Ret tt
       end;;
       Throw verifyError).

Definition saveTokensInternal (tokens : object) : Prog (option string) unit :=
  phase <- get_phase;;
  if decide (phase ≠ RUNNING) then
    Throw (Error ("Skipping token save during shutdown phase: "
                    +:+ phase_name phase))
  else
    now <- Date_now;;
    let operationId := "save-tokens-" +:+ pretty now in
    try_catch
      (ensureTokenDirectoryExists dirname;;
       tokenPath <- get_tokenPath;;
       (* Create a unique temp file *)
       tempTokenPath <- createTempFile tokenPath operationId;;
       await tick;;
       set_local (Some tempTokenPath);;
       withLock tokenPath (save_locked tokens))
      cleanup_and_rethrow.

(** [try { await fs.unlink(this.tokenPath) } catch (unlinkErr) {}] *)
Definition try_unlink {L : Type} (path : string) : Prog L unit :=
  try_catch (await (fs_unlink path)) (λ _, Ret tt).

Definition loadSavedTokensInternal {L : Type} : Prog L bool :=
  tokenPath <- get_tokenPath;;
  try_catch
    (ensureTokenDirectoryExists dirname;;
     (* Check if token file exists *)
     fileExists <- exists_ tokenPath;;
     if negb fileExists then Ret false
     else
       Await (fs_readFile tokenPath) (λ r,
         match r with
         | Err readError => Ret false
         | Ok fileContent =>
             match JSON_parse fileContent with
             | Err parseError =>
                 (* Attempt to delete corrupted token file *)
                 try_unlink tokenPath;;
                 Ret false
             | Ok tokens =>
                 if invalid_format tokens then
                   (* Attempt to delete invalid token file *)
                   try_unlink tokenPath;;
                   Ret false
                 else
                   modify (setCredentials (own_props tokens));;
                   Ret true
             end
         end))
    (λ error,
     (* Attempt to delete potentially corrupted token file *)
     match error_code error with
     | Some code =>
         if decide (code ≠ "ENOENT") then try_unlink tokenPath else Ret tt
     | None => Ret tt
     end;;
     Ret false).

(** ToNumber on the values an [expiry_date] of type [number | null] can
    have; any other value is taken not to spell a number (NaN, [None]). *)
Definition to_number (v : json) : option Z :=
  match v with
  | JNum z => Some z
  | JNull => Some 0%Z
  | JBool b => Some (if b then 1 else 0)%Z
  | _ => None
  end.

(** [expiryDate ? Date.now() >= expiryDate - 5 * 60 * 1000
               : !this.oauth2Client.credentials.access_token] *)
Definition isExpired (credentials : object) (now : Z) : bool :=
  let expiryDate := credentials !! "expiry_date" in
  if truthy expiryDate then
    match expiryDate ≫= to_number with
    | Some e => (now >=? e - 5 * 60 * 1000)%Z   (* 5 minute buffer *)
    | None => false
    end
  else negb (truthy (credentials !! "access_token")).

Definition is_invalid_grant (refreshError : error) : bool :=
  match refreshError with
  | GaxiosError (Some e) => String.eqb e "invalid_grant"
  | _ => false
  end.

Definition refreshTokensIfNeededInternal {L : Type} : Prog L bool :=
  credentials <- get_credentials;;
  now <- Date_now;;
  if isExpired credentials now && truthy (credentials !! "refresh_token")
  then
    try_catch
      (newTokens <- await refreshAccessToken;;
       if negb (truthy (newTokens !! "access_token")) then
         Throw (Error "Received invalid tokens during refresh")
       else
         (* The 'tokens' event listener should handle saving *)
         modify (setCredentials newTokens);;
         Ret true)
      (λ refreshError,
       if is_invalid_grant refreshError then
         Ret false    (* Indicate failure due to invalid grant *)
       else
         (* Handle other refresh errors *)
         Ret false)
  else
    credentials <- get_credentials;;
    if negb (truthy (credentials !! "access_token"))
       && negb (truthy (credentials !! "refresh_token"))
    then Ret false
    else
      (* Token is valid or no refresh token available *)
      Ret true.

Definition validateTokensInternal {L : Type} : Prog L bool :=
  credentials <- get_credentials;;
  if negb (truthy (credentials !! "access_token")) then
    (* Try loading first if no credentials set *)
    loaded <- loadSavedTokensInternal;;
    if negb loaded then Ret false
    else
      (* Check again after loading *)
      credentials <- get_credentials;;
      if negb (truthy (credentials !! "access_token")) then Ret false
      else refreshTokensIfNeededInternal
  else refreshTokensIfNeededInternal.

Definition clearTokensInternal {L : Type} : Prog L unit :=
  try_catch
    (modify (setCredentials ∅);;      (* Clear in memory *)
     tokenPath <- get_tokenPath;;
     await (fs_unlink tokenPath))
    (λ error,
     (* File already gone, or: clearing is best-effort *)
     Ret tt).

(** The public methods. *)
Definition loadSavedTokens : Prog unit bool :=
  start loadSavedTokensInternal (λ p, registerOperation "load-tokens" p []).

Definition refreshTokensIfNeeded : Prog unit bool :=
  start refreshTokensIfNeededInternal
    (λ p, registerOperation "refresh-tokens" p []).

Definition validateTokens : Prog unit bool :=
  start validateTokensInternal
    (λ p, registerOperation "validate-tokens" p []).

Definition saveTokens (tokens : object) : Prog unit unit :=
  start (frame None (saveTokensInternal tokens))
    (λ p, registerOperation "save-tokens" p []).

Definition clearTokens : Prog unit unit :=
  start clearTokensInternal (λ p, registerOperation "clear-tokens" p []).

(** The listener that [setupTokenRefresh] attaches to "tokens".  The
    registered promise is not awaited. *)
Definition tokenListener_call (newTokens : object) : Prog unit unit :=
  phase <- get_phase;;
  (* Skip token refresh if we're shutting down *)
  if decide (phase ≠ RUNNING) then Ret tt
  else
    now <- Date_now;;
    start (frame None (refreshTokensInternal newTokens))
      (λ p, start (registerOperation ("token-refresh-" +:+ pretty now)
                     (try_catch p (λ err, Ret tt)) [])
              (λ tracked, Spawn (void tracked) (Ret tt))).

(** One synchronous file-system call. *)
Definition sync_fs {L X : Type} (f : Env → result X * Env) : Prog L X :=
  Sync (on_env f) (λ r, match r with Ok x => Ret x | Err e => Throw e end).

(** [fsSync.existsSync(dir)] *)
Definition existsSync {L : Type} (dir : string) : Prog L bool :=
  Sync (on_env (λ e, let found := bool_decide (dir ∈ dirs e) in
                     (found, log (EvExists dir found) e))) Ret.

(** [fsSync.writeFileSync(path, data, { mode: 0o600 })]: the two halves
    of the write with nothing in between. *)
Definition writeFileSync {L : Type} (path : string) (data : text)
  : Prog L unit :=
  sync_fs (do_open path);;
  sync_fs (do_write path data).

(** Synchronous method for saving tokens during critical shutdown. *)
Definition syncSaveTokens {L : Type} (tokens : object) : Prog L unit :=
  phase <- get_phase;;
  if decide (phase = COMPLETE) then Ret tt
  else
    try_catch
      (tokenPath <- get_tokenPath;;
       (* Ensure directory exists synchronously *)
       let dir := dirname tokenPath in
       found <- existsSync dir;;
       (if negb found then sync_fs (do_mkdir dir) else Ret tt);;
       (* Write directly to token file synchronously (skip temp file) *)
       writeFileSync tokenPath (JSON_stringify tokens);;
       (* Set the credentials in the client *)
       modify (setCredentials tokens))
      (λ error, Ret tt).

(** Critical shutdown method for emergency situations. *)
Definition emergencyShutdown {L : Type} : Prog L unit :=
  (* Set phase to FINALIZING to prevent new operations *)
  set_phase FINALIZING;;
  (* Remove token listener *)
  removeTokenListener;;
  (* Check if we have any tokens to save *)
  credentials <- get_credentials;;
  (if truthy (credentials !! "access_token") then
     (* Save tokens synchronously *)
     syncSaveTokens credentials
   else Ret tt);;
  (* Set phase to COMPLETE *)
  set_phase COMPLETE.

End Methods.

(** ** Concrete states *)

(** A manager with nothing in flight: no pending operation, no lock, no
    temp file, the listener attached. *)
Definition idle (path : string) (fs : gmap string text)
  (fl : list (option string)) (xs : list (result object))
  (phase : ShutdownPhase) (creds : object) (now : Z) : World :=
  {| env := {| files := fs; dirs := ∅; clock := now; faults := fl;
               entropy := []; exchanges := xs; trace := [] |};
     this := {| oauth2Client := {| credentials := creds; listening := true |};
                tokenPath := path; shutdownPhase := phase;
                pendingOperations := []; heap := [];
                tokenListener := true;
                fileLock := {| locks := [] |};
                tempFileManager := {| tempFiles := [] |} |} |}.

Definition token_json : string := "/home/user/.config/mcp/token.json".

Definition dirname_posix (path : string) : string :=
  if String.eqb path token_json then "/home/user/.config/mcp" else ".".

(** The rule of the expiry boundary: expired exactly when less than five
    minutes are left. *)
Definition expiry_rule (credentials : object) (now e : Z) : Prop :=
  isExpired credentials now = true ↔ (e - 5 * 60 * 1000 ≤ now)%Z.

(** The state of the registry after [registerOperation name _ resources]
    has registered, and after its promise has settled with [st]. *)
Definition registered (name : string) (resources : list string) (w : World)
  : World :=
  with_this (λ m,
    set_pendingOperations
      (JsMap.set name (length (heap m)) (pendingOperations m))
      (set_heap (heap m ++ [{| id := name; status := in_progress;
                               resources := resources;
                               startTime := clock (env w) |}]) m)) w.

Definition settled (name : string) (op : nat) (st : Status) (w : World)
  : World :=
  with_this (λ m,
    set_pendingOperations (JsMap.delete name (pendingOperations m))
      (set_heap (alter (λ o, {| id := id o; status := st;
                                resources := resources o;
                                startTime := startTime o |}) op (heap m))
         m)) w.

Definition status_of {A : Type} (r : result A) : Status :=
  match r with
  | Ok _ => completed
  | Err _ => failed
  end.

(** The claim that every operation in flight has a registry entry of its
    own. *)
Definition entry_per_invocation (s : Sys) : Prop :=
  length (filter (λ p, in_flight p = true) (tasks s))
  ≤ JsMap.size (pendingOperations (this (world s))).

(** Schedules of saves and loads. *)
Inductive step : Type :=
| Save
| Load
| Run (i : nat).

Global Instance step_eq_dec : EqDecision step.
Proof. solve_decision. Defined.

Definition saves (schedule : list step) : nat :=
  length (filter (λ s, s = Save) schedule).

(** The reads of [path] among the events [evs], most recent first. *)
Definition reads_of (path : string) (evs : list event)
  : list (option text) :=
  omap (λ ev, match ev with
              | EvRead p r => if decide (p = path) then Some r else None
              | _ => None
              end) evs.

(** What the reads of [path] returned between the states [w0] and [w]. *)
Definition observed (path : string) (w0 w : World) : list (option text) :=
  reads_of path
    (take (length (trace (env w)) - length (trace (env w0)))
       (trace (env w))).

(** The events that change the file at [path]. *)
Definition changes (path : string) (ev : event) : bool :=
  match ev with
  | EvOpen p ok | EvWrite p _ ok | EvUnlink p ok =>
      ok && bool_decide (p = path)
  | EvRename src dst ok =>
      ok && (bool_decide (src = path) || bool_decide (dst = path))
  | _ => false
  end.


(** ** One save among loads *)

(** What [saveTokens] depends on: the files, the absence of failing calls,
    the phase, the locks and the token path.  A load changes none of
    them. *)
Definition core (w : World)
  : gmap string text * list (option string) * ShutdownPhase
    * list (string * bool) * string :=
  (files (env w), faults (env w), shutdownPhase (this w),
   locks (fileLock (this w)), tokenPath (this w)).

(** A text that [loadSavedTokensInternal] accepts. *)
Definition valid_text (t : text) : bool :=
  match t with
  | Json j => negb (invalid_format j)
  | Garbage _ => false
  end.

Section Interleaving.

Variable dirname : string → string.
Variable tokens : object.

Definition act (s : step) : action :=
  match s with
  | Save => Invoke (saveTokens dirname tokens)
  | Load => Invoke (void (loadSavedTokens dirname))
  | Run i => Resume i
  end.

(** The claim of atomic visibility from the state [w]: however one save
    and any number of loads are interleaved, every read of the token path
    returns the file as it was before the save or the record that is
    saved. *)
Definition atomic_visibility (w : World) : Prop :=
  ∀ schedule : list step,
    saves schedule ≤ 1 →
    let s := sys_run (act <$> schedule) {| world := w; tasks := [] |} in
    ∀ r, r ∈ observed (tokenPath (this w)) w (world s) →
         r = files (env w) !! tokenPath (this w)
         ∨ r = Some (JSON_stringify tokens).

(** The invariant of the interleaving, for the token path [path], the file
    [pre] before the save and the trace [tr0] of the initial state. *)
Variables (path : string) (pre : option text) (tr0 : list event).

Definition read_ok (ev : event) : Prop :=
  match ev with
  | EvRead p r => p = path → r = pre ∨ r = Some (JSON_stringify tokens)
  | _ => True
  end.

Definition trace_ok (tr : list event) : Prop :=
  ∃ new, tr = new ++ tr0 ∧ Forall read_ok new.

Definition file_ok (fs : gmap string text) : Prop :=
  fs !! path = pre
  ∨ (fs !! path = Some (JSON_stringify tokens)
     ∧ invalid_format (JObj tokens) = false).

Definition good (w : World) : Prop :=
  faults (env w) = []
  ∧ tokenPath (this w) = path
  ∧ file_ok (files (env w))
  ∧ trace_ok (trace (env w)).

(** A load is resumed in any good state and keeps the core. *)
Definition R_load (_ w' : World) : Prop := good w'.
Definition G_load (w0 w : World) : Prop := good w ∧ core w = core w0.

(** The save is resumed with the core it left. *)
Definition R_save (w w' : World) : Prop := good w' ∧ core w' = core w.
Definition G_save (_ w : World) : Prop := good w.

(** A suspended task that will keep [G] when it is resumed under [R]. *)
Definition suspended (G R : World → World → Prop)
  (O : Prog unit unit → Prop) (p : Prog unit unit) (w : World) : Prop :=
  match p with
  | Await c k =>
      ∀ w', R w w' →
        wp G R O (k (exec c w').1) (λ _ _ w0 w, G w0 w) tt w' (exec c w').2
  | Ret _ | Throw _ => True
  | _ => False
  end.

(** A tree that is suspended or finished. *)
Definition settled_form (p : Prog unit unit) : Prop :=
  match p with
  | Ret _ | Throw _ | Await _ _ => True
  | _ => False
  end.

Definition quiet_orphan (p : Prog unit unit) : Prop :=
  ∀ w, suspended G_load R_load (λ _, False) p w.

Definition quiet (p : Prog unit unit) : Prop :=
  ∀ w, suspended G_load R_load quiet_orphan p w.

Definition careful (p : Prog unit unit) (w : World) : Prop :=
  suspended G_save R_save quiet_orphan p w.

(** The system invariant; [isave] is the index of the save once it has
    been invoked, and [c0] the core of the initial state. *)
Definition sys_inv
  (c0 : gmap string text * list (option string) * ShutdownPhase
        * list (string * bool) * string)
  (isave : option nat) (s : Sys) : Prop :=
  good (world s)
  ∧ (∀ i p, tasks s !! i = Some p →
       if decide (isave = Some i) then careful p (world s) else quiet p)
  ∧ (isave = None → core (world s) = c0)
  ∧ (∀ i, isave = Some i → i < length (tasks s)).

End Interleaving.

(** ** Concrete inputs *)

Definition credential (fields : list (string * json)) : object :=
  list_to_map fields.

(** A manager at [token_json] with the token file [file], the failing
    calls [fl] and the in-memory credential [creds], at time 1000. *)
Definition manager (file : option text) (fl : list (option string))
  (xs : list (result object)) (phase : ShutdownPhase) (creds : object)
  : World :=
  idle token_json
    (match file with Some t => {[ token_json := t ]} | None => ∅ end)
    fl xs phase creds 1000.

Definition record_A1 : object := credential [("access_token", JStr "A1")].
Definition record_A2 : object := credential [("access_token", JStr "A2")].

(** The rename of the temp file fails three times: the three attempts of
    [withRetry]. *)
Definition rename_fails : list (option string) :=
  [None; None; None; None; Some "EPERM"; Some "EPERM"; Some "EPERM"].

(** The save runs until the copy approach has opened the token file; a
    load then runs up to its read. *)
Definition load_during_copy : list step :=
  Save :: replicate 14 (Run 0) ++ [Load; Run 1; Run 1; Run 1].

(** ** States named in the properties of the helpers *)

(** The world with the lock of [filePath] taken, with it released, and
    after [ms] milliseconds. *)
Definition lock (filePath : string) (w : World) : World :=
  with_this (λ m, set_locks (JsMap.set filePath true (locks (fileLock m))) m)
    w.

Definition unlock (filePath : string) (w : World) : World :=
  with_this (λ m, set_locks (JsMap.delete filePath (locks (fileLock m))) m)
    w.

Definition sleep (ms : Z) (w : World) : World :=
  with_env (λ e, set_clock (clock e + ms) e) w.


(** Two states of the manager that differ at most in the temp files that
    are tracked. *)
Definition same_manager (w w' : World) : Prop :=
  set_tempFiles [] (this w') = set_tempFiles [] (this w).

(** One turn of the loop of [cleanupAllTemporaryFiles]. *)
Definition cleanup_one {L} (tempPath : string) : Prog L unit :=
  try_catch
    (Await (fs_access tempPath) (λ r,
       match r with
       | Ok _ => await (fs_unlink tempPath)
       | Err _ => Ret tt
       end);;
     releaseTemporaryFile tempPath)
    (λ _, Ret tt).

(** One turn of the inner loop of [waitForPendingOperations]. *)
Definition release_one {L} (resource : string) : Prog L unit :=
  temporary <- isTemporaryFile resource;;
  if temporary then
    releaseTemporaryFile resource;;
    try_catch (await (fs_unlink resource)) (λ _, Ret tt)
  else Ret tt.

(** The resources of the operations that [entries] name. *)
Definition resources_of (w : World) (entries : list (string * nat))
  : list string :=
  entries ≫= λ '(_, op), match heap (this w) !! op with
                          | Some o => resources o
                          | None => []
                          end.


(** ** Concrete inputs for the helpers *)

(** The manager [w] with one tracked temp file, and with one operation
    left in the registry that names a resource. *)
Definition tracking (tempPath operationId : string) (w : World) : World :=
  with_this (set_tempFiles [(tempPath, operationId)]) w.

Definition stuck (name resource : string) (w : World) : World :=
  with_this (λ m,
    set_pendingOperations [(name, 0)]
      (set_heap [{| id := name; status := in_progress;
                    resources := [resource]; startTime := 0 |}] m)) w.

Definition scratch_tmp : string := "/home/user/.config/mcp/token.json.1.a.tmp".

(** An access token that expired at 500, with a refresh token. *)
Definition record_expired : object :=
  credential [("access_token", JStr "A"); ("refresh_token", JStr "R");
              ("expiry_date", JNum 500)].

(** Two loads, the second invoked while the first awaits its read. *)
Definition two_loads : list step :=
  [Load; Run 0; Run 0; Load; Run 1; Run 0; Run 1; Run 1; Run 0; Run 1].
(** * Properties *)

Module JsMapFacts.
Import JsMap.
Section facts.
Context {V : Type}.
Implicit Types m : list (string * V).

Lemma get_set_eq k v m : get k (set k v m) = Some v.
Proof.
  unfold get. induction m as [|[k' v'] m IH]; simpl.
  - by rewrite bool_decide_eq_true_2.
  - destruct (decide (k' = k)) as [->|Hne]; simpl.
    + by rewrite bool_decide_eq_true_2.
    + by rewrite bool_decide_eq_false_2.
Qed.

Lemma get_set_ne k k' v m : k ≠ k' → get k' (set k v m) = get k' m.
Proof.
  intros Hne. unfold get. induction m as [|[k0 v0] m IH]; simpl.
  - by rewrite bool_decide_eq_false_2.
  - destruct (decide (k0 = k)) as [->|Hne0]; simpl.
    + by rewrite !bool_decide_eq_false_2.
    + destruct (bool_decide (k0 = k')); [done | apply IH].
Qed.

Lemma get_delete_eq k m : get k (delete k m) = None.
Proof.
  unfold get, delete. induction m as [|[k' v'] m IH]; simpl; [done|].
  destruct (bool_decide (k' = k)) eqn:E; simpl; [done|].
  by rewrite E.
Qed.

(** Setting a key that is present replaces its entry in place: the map
    does not grow. *)
Lemma size_set_present k v m :
  is_Some (get k m) → size (set k v m) = size m.
Proof.
  unfold size, get. induction m as [|[k' v'] m IH]; simpl.
  - by intros [? ?].
  - destruct (decide (k' = k)) as [->|Hne]; simpl; [done|].
    rewrite bool_decide_eq_false_2 by done. intros H. by rewrite IH.
Qed.

Lemma has_set_eq k v m : has k (set k v m) = true.
Proof. unfold has. rewrite get_set_eq. by apply bool_decide_eq_true_2. Qed.

End facts.
End JsMapFacts.

(** ** Reasoning about program trees *)

Ltac destruct_world w :=
  destruct w as [[?fs ?ds ?ck ?fl ?en ?ex ?tr]
                 [[?cr ?li] ?tp ?ph ?pd ?hp ?tl [?lk] [?tf]]].

Ltac prog_induction m :=
  induction m as [L A a|L A e|L A X f k IH|L A X f k IH|L A X c k IH
                 |L A p IHp k IH].

Section wp_facts.
Variables (G R : World → World → Prop) (O : Prog unit unit → Prop).
Local Abbreviation wp := (wp G R O).

Lemma wp_mono {L A} (m : Prog L A) :
  ∀ (Q Q' : result A → L → World → World → Prop) l w0 w,
  (∀ r l w0 w, Q r l w0 w → Q' r l w0 w) → wp m Q l w0 w → wp m Q' l w0 w.
Proof.
  prog_induction m; intros Q Q' l w0 w HQ; cbn.
  - apply HQ.
  - apply HQ.
  - by apply IH.
  - by apply IH.
  - intros [HG H]. split; [done|]. intros w' HR. eapply IH, H, HR. done.
  - intros [HO H]. split; [done|]. by eapply IH.
Qed.

Lemma wp_bind {L A} (m : Prog L A) :
  ∀ B (k : A → Prog L B) Q l w0 w,
  wp m (λ r l' w0' w', match r with
                       | Ok a => wp (k a) Q l' w0' w'
                       | Err e => Q (Err e) l' w0' w'
                       end) l w0 w →
  wp (bind m k) Q l w0 w.
Proof.
  prog_induction m; intros B k' Q l w0 w; cbn.
  - done.
  - done.
  - apply IH.
  - apply IH.
  - intros [HG H]. split; [done|]. intros w' HR. apply IH, H, HR.
  - intros [HO H]. split; [done|]. by apply IH.
Qed.

Lemma wp_try_catch {L A} (m : Prog L A) :
  ∀ (h : error → Prog L A) Q l w0 w,
  wp m (λ r l' w0' w', match r with
                       | Ok a => Q (Ok a) l' w0' w'
                       | Err e => wp (h e) Q l' w0' w'
                       end) l w0 w →
  wp (try_catch m h) Q l w0 w.
Proof.
  prog_induction m; intros h Q l w0 w; cbn.
  - done.
  - done.
  - apply IH.
  - apply IH.
  - intros [HG H]. split; [done|]. intros w' HR. apply IH, H, HR.
  - intros [HO H]. split; [done|]. by apply IH.
Qed.

Lemma wp_try_finally {L A} (m : Prog L A) :
  ∀ (fin : Prog L unit) Q l w0 w,
  wp m (λ r l' w0' w',
          wp fin (λ r' l'' w0'' w'', match r' with
                                     | Ok _ => Q r l'' w0'' w''
                                     | Err e => Q (Err e) l'' w0'' w''
                                     end) l' w0' w') l w0 w →
  wp (try_finally m fin) Q l w0 w.
Proof.
  prog_induction m; intros fin Q l w0 w; cbn.
  - intros H. apply wp_bind. eapply wp_mono; [|exact H]. by intros [[]|].
  - intros H. apply wp_bind. eapply wp_mono; [|exact H]. by intros [[]|].
  - apply IH.
  - apply IH.
  - intros [HG H]. split; [done|]. intros w' HR. apply IH, H, HR.
  - intros [HO H]. split; [done|]. by apply IH.
Qed.

Lemma wp_frame {L A} (m : Prog L A) :
  ∀ L' (l : L) Q (l' : L') w0 w,
  wp m (λ r _ w0' w', Q r l' w0' w') l w0 w →
  wp (frame l m) Q l' w0 w.
Proof.
  prog_induction m; intros L' l Q l' w0 w; cbn.
  - done.
  - done.
  - apply IH.
  - destruct (f l) as [x l1]. apply IH.
  - intros [HG H]. split; [done|]. intros w1 HR. apply IH, H, HR.
  - intros [HO H]. split; [done|]. by apply IH.
Qed.

Lemma wp_start {L A} (m : Prog L A) :
  ∀ B (k : Prog L A → Prog L B) Q l w0 w,
  wps O m (λ m' l' w', wp (k m') Q l' w0 w') l w →
  wp (start m k) Q l w0 w.
Proof.
  prog_induction m; intros B k' Q l w0 w; cbn.
  - done.
  - done.
  - apply IH.
  - apply IH.
  - done.
  - intros [HO H]. split; [done|]. by apply IH.
Qed.

Lemma wps_start {L A} (m : Prog L A) :
  ∀ B (k : Prog L A → Prog L B) P l w,
  wps O m (λ m' l' w', wps O (k m') P l' w') l w →
  wps O (start m k) P l w.
Proof.
  prog_induction m; intros B k' P l w; cbn.
  - done.
  - done.
  - apply IH.
  - apply IH.
  - done.
  - intros [HO H]. split; [done|]. by apply IH.
Qed.

Lemma wps_settle {L A} (m : Prog L A) :
  ∀ P l w,
  wps O m P l w →
  P (settle m l w).1.1.1 (settle m l w).1.1.2 (settle m l w).1.2
  ∧ Forall O (settle m l w).2.
Proof.
  prog_induction m; intros P l w; cbn; try done.
  - destruct (f w) as [x w']. apply IH.
  - destruct (f l) as [x l']. apply IH.
  - intros [HO H]. apply IH in H as [H1 H2].
    destruct (settle k l w) as [[[m' l'] w'] ps]. cbn in *.
    split; [done|]. by constructor.
Qed.

Lemma wps_bind {L A} (m : Prog L A) :
  ∀ B (k : A → Prog L B) P l w,
  wps O m (λ m' l' w', match m' with
                       | Ret a => wps O (k a) P l' w'
                       | _ => P (bind m' k) l' w'
                       end) l w →
  wps O (bind m k) P l w.
Proof.
  prog_induction m; intros B k' P l w; cbn.
  - done.
  - done.
  - apply IH.
  - apply IH.
  - done.
  - intros [HO H]. split; [done|]. by apply IH.
Qed.

Lemma wps_try_catch {L A} (m : Prog L A) :
  ∀ (h : error → Prog L A) P l w,
  wps O m (λ m' l' w', match m' with
                       | Throw e => wps O (h e) P l' w'
                       | _ => P (try_catch m' h) l' w'
                       end) l w →
  wps O (try_catch m h) P l w.
Proof.
  prog_induction m; intros h P l w; cbn.
  - done.
  - done.
  - apply IH.
  - apply IH.
  - done.
  - intros [HO H]. split; [done|]. by apply IH.
Qed.

Lemma wps_frame {L A} (m : Prog L A) :
  ∀ L' (l : L) (P : Prog L' A → L' → World → Prop) (l' : L') w,
  wps O m (λ m' l1 w', P (frame l1 m') l' w') l w →
  wps O (frame l m) P l' w.
Proof.
  prog_induction m; intros L' l P l' w; cbn.
  - done.
  - done.
  - apply IH.
  - destruct (f l) as [x l1]. apply IH.
  - done.
  - intros [HO H]. split; [done|]. by apply IH.
Qed.

Lemma wps_sync {L A X} (f : World → X * World) (k : X → Prog L A) P l w x w' :
  f w = (x, w') → wps O (k x) P l w' → wps O (Sync f k) P l w.
Proof. intros E H. cbn. by rewrite E. Qed.

Lemma wps_local {L A X} (f : L → X * L) (k : X → Prog L A) P l w x l' :
  f l = (x, l') → wps O (k x) P l' w → wps O (Local f k) P l w.
Proof. intros E H. cbn. by rewrite E. Qed.

Lemma wp_sync {L A X} (f : World → X * World) (k : X → Prog L A) Q l w0 w x w' :
  f w = (x, w') → wp (k x) Q l w0 w' → wp (Sync f k) Q l w0 w.
Proof. intros E H. cbn. by rewrite E. Qed.

Lemma wp_local {L A X} (f : L → X * L) (k : X → Prog L A) Q l w0 w x l' :
  f l = (x, l') → wp (k x) Q l' w0 w → wp (Local f k) Q l w0 w.
Proof. intros E H. cbn. by rewrite E. Qed.

End wp_facts.

Lemma alone_await {L A X} (c : io X) (k : result X → Prog L A) Q l w0 w r w' :
  exec c w = (r, w') → alone (k r) Q l w w' → alone (Await c k) Q l w0 w.
Proof. intros E H. split; [done|]. intros ? <-. by rewrite E. Qed.

Lemma alone_await_any {L A X} (c : io X) (k : result X → Prog L A) Q l w0 w :
  (∀ r w', alone (k r) Q l w w') → alone (Await c k) Q l w0 w.
Proof. intros H. split; [done|]. intros ? <-. apply H. Qed.

Lemma alone_of_eval {L A} (m : Prog L A) :
  ∀ (Q : result A → L → World → World → Prop) l w0 w,
  (∀ w0', Q (eval m l w).1.1 (eval m l w).1.2 w0' (eval m l w).2) →
  alone m Q l w0 w.
Proof.
  prog_induction m; intros Q l w0 w; cbn.
  - done.
  - done.
  - destruct (f w) as [x w']. apply IH.
  - destruct (f l) as [x l']. apply IH.
  - intros H. split; [done|]. intros ? <-.
    destruct (exec c w) as [r w']. by apply IH.
  - intros H. split; [done|]. by apply IH.
Qed.

Lemma alone_eval {L A} (m : Prog L A) :
  ∀ (Q : result A → L → World → Prop) l w0 w,
  alone m (λ r l' _ w', Q r l' w') l w0 w →
  Q (eval m l w).1.1 (eval m l w).1.2 (eval m l w).2.
Proof.
  prog_induction m; intros Q l w0 w; cbn.
  - done.
  - done.
  - destruct (f w) as [x w']. apply IH.
  - destruct (f l) as [x l']. apply IH.
  - intros [_ H]. specialize (H w eq_refl).
    destruct (exec c w) as [r w']. by apply IH in H.
  - intros [_ H]. by apply IH in H.
Qed.

Lemma alone_run {A} (m : Prog unit A) (Q : result A → World → Prop) w :
  alone m (λ r _ _ w', Q r w') tt w w → Q (run m w).1 (run m w).2.
Proof.
  intros H. apply (alone_eval m (λ r _ w', Q r w')) in H. unfold run.
  by destruct (eval m tt w) as [[r l] w'].
Qed.

Lemma acquire_poll_eq {L} polls filePath startTime timeout :
  acquire_poll (L:=L) polls filePath startTime timeout =
  (now <- Date_now;;
   if (now - startTime <? timeout)%Z then
     held <- gets (λ w, JsMap.has filePath (locks (fileLock (this w))));;
     if negb held then
       modify (with_this (λ m,
         set_locks (JsMap.set filePath true (locks (fileLock m))) m));;
       Ret true
     else
       match polls with
       | O => Ret false
       | S polls' =>
           await (setTimeout 100);;
           acquire_poll polls' filePath startTime timeout
       end
   else Ret false).
Proof. by destruct polls. Qed.

Lemma withRetry_from_S {L T} (operation : Prog L T) remaining delay lastError :
  withRetry_from operation (S remaining) delay lastError =
  try_catch operation (λ error,
    (if decide (remaining ≠ O) then await (setTimeout delay) else Ret tt);;
    withRetry_from operation remaining delay error).
Proof. done. Qed.

(** ** Interleaved operations *)

Lemma wp_orphans_mono G R (O O' : Prog unit unit → Prop) {L A} (m : Prog L A) :
  ∀ Q l w0 w, (∀ p, O p → O' p) → wp G R O m Q l w0 w → wp G R O' m Q l w0 w.
Proof.
  prog_induction m; intros Q l w0 w HO; cbn; try done.
  - by apply IH.
  - by apply IH.
  - intros [HG H]. split; [done|]. intros w' HR. by eapply IH, H.
  - intros [Hp H]. split; [by apply HO|]. by eapply IH.
Qed.

Lemma wp_settle G R O {L A} (m : Prog L A) :
  ∀ Q l w0 w, wp G R O m Q l w0 w →
  Forall O (settle m l w).2
  ∧ match (settle m l w).1.1.1 with
    | Ret a => Q (Ok a) (settle m l w).1.1.2 w0 (settle m l w).1.2
    | Throw e => Q (Err e) (settle m l w).1.1.2 w0 (settle m l w).1.2
    | Await c k =>
        G w0 (settle m l w).1.2
        ∧ ∀ w', R (settle m l w).1.2 w' →
            wp G R O (k (exec c w').1) Q (settle m l w).1.1.2 w' (exec c w').2
    | _ => False
    end.
Proof.
  prog_induction m; intros Q l w0 w; cbn; try done.
  - destruct (f w) as [x w']. apply IH.
  - destruct (f l) as [x l']. apply IH.
  - intros [HO H]. apply IH in H as [H1 H2].
    destruct (settle k l w) as [[[m' l'] w'] ps]. cbn in *.
    split; [by constructor|done].
Qed.

Lemma wp_resume G R O {L A X} (c : io X) (k : result X → Prog L A) Q l w' r w'' :
  exec c w' = (r, w'') →
  wp G R O (k r) Q l w' w'' →
  wp G R O (k (exec c w').1) Q l w' (exec c w').2.
Proof. by intros ->. Qed.

Lemma wp_await G R O {L A X} (c : io X) (k : result X → Prog L A) Q l w0 w :
  G w0 w →
  (∀ w', R w w' →
     ∃ r w'', exec c w' = (r, w'') ∧ wp G R O (k r) Q l w' w'') →
  wp G R O (Await c k) Q l w0 w.
Proof.
  intros HG H. split; [done|]. intros w' HR.
  destruct (H w' HR) as (r & w'' & -> & Hk). done.
Qed.

(** ** Symbolic execution *)

Ltac wsimp :=
  cbv beta iota zeta delta
      [fst snd env this files dirs clock faults entropy exchanges trace
       oauth2Client credentials listening tokenPath shutdownPhase
       pendingOperations heap tokenListener fileLock locks tempFileManager
       tempFiles with_env with_this set_files set_dirs set_clock set_faults
       set_entropy set_exchanges log set_oauth2Client set_shutdownPhase
       set_pendingOperations set_heap set_tokenListener set_locks
       set_tempFiles setCredentials on_env next_fault exec
       do_mkdir do_access do_readFile do_open do_write do_rename do_unlink
       do_exchange].

Ltac lookups :=
  repeat first
    [ rewrite lookup_insert_eq
    | rewrite lookup_delete_eq
    | rewrite lookup_insert_ne by done
    | rewrite lookup_delete_ne by done
    | match goal with
      | H : ?m !! ?k = _ |- context [?m !! ?k] => rewrite H
      end ].

Ltac unfold_head p :=
  lazymatch p with
  | ?f _ _ _ _ _ _ => unfold f at 1
  | ?f _ _ _ _ _ => unfold f at 1
  | ?f _ _ _ _ => unfold f at 1
  | ?f _ _ _ => unfold f at 1
  | ?f _ _ => unfold f at 1
  | ?f _ => unfold f at 1
  | ?f => unfold f at 1
  end.

Ltac wp_step :=
  cbv beta iota zeta;
  lazymatch goal with
  | |- match ?m with _ => _ end =>
      lazymatch type of m with
      | Prog _ _ => let m' := eval hnf in m in progress change m with m'
      end
  | |- wp _ _ _ (start _ _) _ _ _ _ => apply wp_start
  | |- wps _ (start _ _) _ _ _ => apply wps_start
  | |- wps _ (bind _ _) _ _ _ => apply wps_bind
  | |- wps _ (try_catch _ _) _ _ _ => apply wps_try_catch
  | |- wps _ (frame _ _) _ _ _ => apply wps_frame
  | |- wps _ (Ret _) _ _ _ => cbn [wps]
  | |- wps _ (Throw _) _ _ _ => cbn [wps]
  | |- wps _ (Await _ _) _ _ _ => cbn [wps]
  | |- wps _ (Sync _ _) _ _ _ =>
      eapply wps_sync; [wsimp; reflexivity|]
  | |- wps _ (Local _ _) _ _ _ =>
      eapply wps_local; [cbn; reflexivity|]
  | |- wps _ (Spawn _ _) _ _ _ => split; [try exact I|]
  | |- wps _ (if decide ?P then _ else _) _ _ _ =>
      destruct (decide P); [try done|try done]
  | |- wps _ (if ?b then _ else _) _ _ _ =>
      first
        [ match goal with
          | H : ?b' = _ |- _ =>
              match b with context [b'] => rewrite H end
          end
        | let b' := eval cbn in b in progress change b with b' ]
  | |- wps _ (match ?s with _ => _ end) _ _ _ =>
      first
        [ match goal with
          | H : ?s' = _ |- _ =>
              match s with context [s'] => rewrite H end
          end
        | let s' := eval hnf in s in progress change s with s' ]
  | |- wps _ ?p _ _ _ => unfold_head p
  | |- wp _ _ _ (bind _ _) _ _ _ _ => apply wp_bind
  | |- wp _ _ _ (try_catch _ _) _ _ _ _ => apply wp_try_catch
  | |- wp _ _ _ (try_finally _ _) _ _ _ _ => apply wp_try_finally
  | |- wp _ _ _ (frame _ _) _ _ _ _ => apply wp_frame
  | |- wp _ _ _ (Ret _) _ _ _ _ => cbn [wp]
  | |- wp _ _ _ (Throw _) _ _ _ _ => cbn [wp]
  | |- wp _ _ _ (Sync _ _) _ _ _ _ =>
      eapply wp_sync; [wsimp; reflexivity|]
  | |- wp _ _ _ (Local _ _) _ _ _ _ =>
      eapply wp_local; [cbn; reflexivity|]
  | |- wp _ eq _ (Await ?c _) _ _ _ ?w =>
      first
        [ eapply alone_await; [wsimp; lookups; wsimp; reflexivity|]
        | match w with
          | context [Build_Env _ _ _ ?fl _ _ _] =>
              is_var fl; destruct fl as [|[?|] ?]
          end
        | match c with
          | context [?path] =>
              match w with
              | context [Build_Env ?m _ _ _ _ _ _] =>
                  is_var m; destruct (m !! path) as [[?|?]|] eqn:?
              end
          end ]
  | |- wp _ _ _ (Spawn _ _) _ _ _ _ => split; [try exact I|]
  | |- wp _ _ _ (acquire_poll _ _ _ _) _ _ _ _ => rewrite acquire_poll_eq
  | |- wp _ _ _ (withRetry_from _ (S _) _ _) _ _ _ _ =>
      rewrite withRetry_from_S
  | |- wp _ _ _ (withRetry _ _) _ _ _ _ => unfold withRetry at 1
  | |- wp _ _ _ (if (?a - ?a <? _)%Z then _ else _) _ _ _ _ =>
      rewrite Z.sub_diag; change (0 <? 5000)%Z with true
  | |- wp _ _ _ (if decide ?P then _ else _) _ _ _ _ =>
      destruct (decide P); [try done|try done]
  | |- wp _ _ _ (if ?b then _ else _) _ _ _ _ =>
      first
        [ match goal with
          | H : ?b' = _ |- _ =>
              match b with context [b'] => rewrite H end
          end
        | let b' := eval cbn in b in progress change b with b' ]
  | |- wp _ _ _ (match ?s with _ => _ end) _ _ _ _ =>
      first
        [ match goal with
          | H : ?s' = _ |- _ =>
              match s with context [s'] => rewrite H end
          end
        | let s' := eval hnf in s in progress change s with s' ]
  | |- wp _ _ _ ?p _ _ _ _ => unfold_head p
  end.

(** Case analysis on the condition or scrutinee at the head of the tree. *)
Ltac wp_case :=
  lazymatch goal with
  | |- wps _ (if ?b then _ else _) _ _ _ => destruct b eqn:?
  | |- wps _ (match ?s with _ => _ end) _ _ _ => destruct s eqn:?
  | |- wp _ _ _ (if ?b then _ else _) _ _ _ _ => destruct b eqn:?
  | |- wp _ _ _ (match ?s with _ => _ end) _ _ _ _ => destruct s eqn:?
  end.

Ltac wp_run := repeat wp_step.
Ltac wp_explore := repeat (wp_step || wp_case).

Section Properties.

Variable dirname : string → string.

(** *** Admission during shutdown *)

(** Invoking [markAsShuttingDown] takes the phase out of [RUNNING] before
    the method first awaits. *)
Lemma markAsShuttingDown_leaves_RUNNING (w : World) :
  shutdownPhase (this (settle (markAsShuttingDown (L:=unit)) tt w).1.2)
  ≠ RUNNING.
Proof.
  destruct_world w.
  unfold markAsShuttingDown, removeTokenListener, waitForPendingOperations,
    cleanupAllTemporaryFiles.
  destruct ph, tl, pd as [|[??]?], tf as [|[??]?]; cbn; done.
Qed.

(** C5.  In every state whose shutdown phase is not [RUNNING], a call of
    [saveTokens] is rejected with the shutting-down error before it
    awaits anything (its promise is rejected when the call returns), and
    the state, files and trace of file-system calls included, is what it
    was: nothing is written. *)
Theorem saveTokens_rejected_during_shutdown (tokens : object) (w : World) :
  shutdownPhase (this w) ≠ RUNNING →
  settle (saveTokens dirname tokens) tt w
  = (Throw (shutting_down "save-tokens" (shutdownPhase (this w))), tt, w,
     [Throw (Error ("Skipping token save during shutdown phase: "
                      +:+ phase_name (shutdownPhase (this w))))])
  ∧ run (saveTokens dirname tokens) w
    = (Err (shutting_down "save-tokens" (shutdownPhase (this w))), w).
Proof.
  intros H. unfold run, saveTokens, saveTokensInternal, registerOperation.
  cbn. destruct (decide _) as [_|E]; [|done]. cbn.
  destruct (decide _) as [_|E]; [|done]. by cbn.
Qed.



(** *** Expiry and refresh *)

(** C10.  With an access token, an expiry date already in the past and no
    refresh token, [refreshTokensIfNeeded] resolves to [true]: the
    expired credential that cannot be refreshed is reported as valid, and
    no exchange is attempted. *)
Theorem expired_without_refresh_token_is_valid (w : World) (e : Z) :
  let c := credentials (oauth2Client (this w)) in
  truthy (c !! "access_token") = true →
  c !! "expiry_date" = Some (JNum e) →
  (e < clock (env w))%Z →
  truthy (c !! "refresh_token") = false →
  run refreshTokensIfNeededInternal w = (Ok true, w)
  ∧ (shutdownPhase (this w) = RUNNING →
     let r := run refreshTokensIfNeeded w in
     r.1 = Ok true ∧ env r.2 = env w
     ∧ credentials (oauth2Client (this r.2)) = c).
Proof.
  destruct_world w. cbn. intros Ha He Hlt Hr.
  unfold run, refreshTokensIfNeeded, refreshTokensIfNeededInternal,
    registerOperation.
  cbn -[truthy isExpired]. rewrite Hr, andb_false_r.
  cbn -[truthy]. rewrite Ha, Hr. cbn. split; [done|].
  intros ->. cbn. case_decide; [done|]. by cbn.
Qed.

(** C8.  When the refresh exchange is attempted and fails, with the
    invalid-grant error of the provider or with any other error,
    [refreshTokensIfNeeded] resolves to [false]; it does not raise and it
    leaves the credentials as they were. *)
Theorem refresh_error_resolves_to_false (w : World) (err : error)
  (rest : list (result object)) :
  let c := credentials (oauth2Client (this w)) in
  isExpired c (clock (env w)) = true →
  truthy (c !! "refresh_token") = true →
  exchanges (env w) = Err err :: rest →
  let r := run refreshTokensIfNeededInternal w in
  r.1 = Ok false
  ∧ credentials (oauth2Client (this r.2)) = c
  ∧ (shutdownPhase (this w) = RUNNING →
     (run refreshTokensIfNeeded w).1 = Ok false).
Proof.
  destruct_world w. cbn. intros He Hr Hx. subst.
  unfold run, refreshTokensIfNeeded, refreshTokensIfNeededInternal,
    registerOperation.
  cbn -[truthy isExpired]. rewrite He, Hr. cbn -[truthy isExpired].
  split; [by destruct (is_invalid_grant err)|].
  split; [by destruct (is_invalid_grant err)|].
  intros ->. cbn. case_decide; [done|]. cbn.
  by destruct (is_invalid_grant err).
Qed.


(** *** Refresh-token stickiness *)


(** *** Post-write verification *)

Lemma length_append (s t : string) :
  String.length (s +:+ t) = String.length s + String.length t.
Proof. induction s as [|c s IH]; simpl; [done|]. by f_equal. Qed.

(** The temp path is never the token path. *)
Lemma temp_path_ne (base suffix : string) : base +:+ "." +:+ suffix ≠ base.
Proof.
  intros H. apply (f_equal String.length) in H.
  rewrite !length_append in H. simpl in H. lia.
Qed.

(** C4, at its failing inputs.  New tokens without an access token, no
    token file, a running manager, a free lock and no failing call:
    [refreshTokensInternal] returns normally and leaves the record without
    access token in the token file, where [saveTokensInternal] on the
    same tokens raises the verification error and leaves no token file. *)
Theorem refresh_verification_misses_access_token (w : World)
  (newTokens : object) :
  shutdownPhase (this w) = RUNNING →
  JsMap.has (tokenPath (this w)) (locks (fileLock (this w))) = false →
  faults (env w) = [] →
  files (env w) !! tokenPath (this w) = None →
  truthy (newTokens !! "access_token") = false →
  let r := run (frame None (refreshTokensInternal dirname newTokens)) w in
  let s := run (frame None (saveTokensInternal dirname newTokens)) w in
  (r.1 = Ok tt
   ∧ files (env r.2) !! tokenPath (this w) = Some (JSON_stringify newTokens))
  ∧ (s.1 = Err (Error "Token verification failed, invalid token format")
     ∧ files (env s.2) !! tokenPath (this w) = None).
Proof.
  intros Hph Hlk Hfl Hf Ha r s. subst r s. split.
  - apply (alone_run _ (λ r w', r = Ok tt ∧
      files (env w') !! tokenPath (this w) = Some (JSON_stringify newTokens))).
    revert Hph Hlk Hfl Hf. destruct_world w. wsimp. intros -> Hlk -> Hf.
    destruct en as [|rnd en]; repeat wp_step.
    all: by rewrite lookup_insert_eq.
  - apply (alone_run _ (λ r w',
      r = Err (Error "Token verification failed, invalid token format") ∧
      files (env w') !! tokenPath (this w) = None)).
    revert Hph Hlk Hfl Hf. destruct_world w. wsimp. intros -> Hlk -> Hf.
    assert (Hinv : invalid_format (JObj newTokens) = true).
    { unfold invalid_format. cbn -[truthy]. by rewrite Ha. }
    destruct en as [|rnd en]; repeat wp_step.
    all: split; [done|].
    all: rewrite lookup_delete_ne by (apply temp_path_ne).
    all: by rewrite !lookup_insert_ne by (apply temp_path_ne).
Qed.

(** *** Shutdown phases *)

(** C3, at its failing inputs.  The phase is [COMPLETE], an access token
    is held in memory and no call fails.  [syncSaveTokens] on its own
    would do nothing, but [emergencyShutdown] first puts the phase back
    to [FINALIZING], so the save runs and writes the token file. *)
Theorem emergencyShutdown_after_complete_writes (w : World) :
  let c := credentials (oauth2Client (this w)) in
  let p := tokenPath (this w) in
  shutdownPhase (this w) = COMPLETE →
  truthy (c !! "access_token") = true →
  faults (env w) = [] →
  let r := run (emergencyShutdown dirname) w in
  run (syncSaveTokens dirname c) w = (Ok tt, w)
  ∧ shutdownPhase (this (run (set_phase FINALIZING) w).2) = FINALIZING
  ∧ files (env r.2) !! p = Some (JSON_stringify c)
  ∧ (∃ evs, trace (env r.2)
            = EvWrite p (JSON_stringify c) true :: EvOpen p true :: evs)
  ∧ shutdownPhase (this r.2) = COMPLETE.
Proof.
  intros c p Hph Ha Hfl r. subst c p r.
  split; [|split; [done|]].
  - unfold run, syncSaveTokens. cbn. rewrite Hph. by cbn.
  - apply (alone_run _ (λ r w',
      files (env w') !! tokenPath (this w) = Some _ ∧
      (∃ evs, trace (env w') = _ :: _ :: evs) ∧
      shutdownPhase (this w') = COMPLETE)).
    revert Hph Ha Hfl. destruct_world w. wsimp. intros -> Ha ->.
    destruct tl; repeat wp_step.
    all: destruct (bool_decide _); repeat wp_step.
    all: split; [by rewrite lookup_insert_eq|]; split; [eauto|done].
Qed.

(** *** Loading *)

(** C7.  Whatever the files and whichever calls fail,
    [loadSavedTokensInternal] returns a boolean and never raises, and so
    does [loadSavedTokens] while the manager is running.  It returns
    [false] when the token file is absent, when reading it fails, when its
    text is not JSON and when its record has no access token; in the last
    two cases, when no call fails, the token file is gone afterwards. *)
Theorem load_is_total_and_heals (w : World) :
  let p := tokenPath (this w) in
  let r := run (loadSavedTokensInternal dirname) w in
  (∃ b, r.1 = Ok b)
  ∧ (shutdownPhase (this w) = RUNNING →
     ∃ b, (run (loadSavedTokens dirname) w).1 = Ok b)
  ∧ (files (env w) !! p = None → r.1 = Ok false)
  ∧ (∀ t code rest, files (env w) !! p = Some t →
       faults (env w) = None :: None :: Some code :: rest →
       r.1 = Ok false)
  ∧ (∀ garbage, files (env w) !! p = Some (Garbage garbage) →
       r.1 = Ok false
       ∧ (faults (env w) = [] → files (env r.2) !! p = None))
  ∧ (∀ tokens, files (env w) !! p = Some (Json tokens) →
       invalid_format tokens = true →
       r.1 = Ok false
       ∧ (faults (env w) = [] → files (env r.2) !! p = None)).
Proof.
  intros p r. subst p r. split_and!.
  - apply (alone_run _ (λ r _, ∃ b, r = Ok b)).
    destruct_world w. wp_explore; eauto.
  - intros Hph.
    apply (alone_run _ (λ r _, ∃ b, r = Ok b)).
    revert Hph. destruct_world w. wsimp. intros ->.
    wp_explore; eauto.
  - intros Hf. apply (alone_run _ (λ r _, r = Ok false)).
    revert Hf. destruct_world w. wsimp. intros Hf.
    repeat wp_step; eauto.
  - intros t code rest Hf Hfl.
    apply (alone_run _ (λ r _, r = Ok false)).
    revert Hf Hfl. destruct_world w. wsimp. intros Hf ->.
    repeat wp_step; eauto.
  - intros g Hf.
    apply (alone_run _ (λ r w', r = Ok false ∧
      (faults (env w) = [] → files (env w') !! tokenPath (this w) = None))).
    revert Hf. destruct_world w. wsimp. intros Hf.
    repeat wp_step; eauto.
    all: split; [done|]; try done.
    all: intros _; apply lookup_delete_eq.
  - intros tokens Hf Hj.
    apply (alone_run _ (λ r w', r = Ok false ∧
      (faults (env w) = [] → files (env w') !! tokenPath (this w) = None))).
    revert Hf. destruct_world w. wsimp. intros Hf.
    repeat wp_step; eauto.
    all: split; [done|]; try done.
    all: intros _; apply lookup_delete_eq.
Qed.
(** Each public method is registered under the fixed id of the method. *)
Lemma public_methods_register_under_their_name (tokens : object)
  (w : World) :
  shutdownPhase (this w) = RUNNING →
  Forall (λ '(name, m),
            JsMap.get name (pendingOperations (this (settle m tt w).1.2))
            = Some (length (heap (this w))))
    [("load-tokens", void (loadSavedTokens dirname));
     ("refresh-tokens", void refreshTokensIfNeeded);
     ("validate-tokens", void (validateTokens dirname));
     ("save-tokens", saveTokens dirname tokens);
     ("clear-tokens", clearTokens)].
Proof.
  intros Hph. repeat constructor.
  all: revert Hph; destruct_world w; wsimp; intros ->.
  all: unfold saveTokens, saveTokensInternal, loadSavedTokens,
    validateTokens, validateTokensInternal, loadSavedTokensInternal,
    clearTokens, clearTokensInternal, refreshTokensIfNeeded,
    refreshTokensIfNeededInternal, registerOperation, void; cbn.
  all: repeat match goal with
       | |- context [if ?b then _ else _] =>
           match b with
           | context [truthy _] => destruct b eqn:?; cbn
           end
       end.
  all: apply JsMapFacts.get_set_eq.
Qed.

(** C9, as amended.  While the manager is running, every public method
    is registered under the fixed id of the method, and
    [registerOperation] records the operation under the id it is given:
    the entry is a new [Operation] object, in progress, and when the id is
    already in the registry the entry is replaced and the registry does
    not grow.  When the operation settles, the wrapper gives its result or
    its error unchanged and removes the entry that is under that id. *)
Theorem registerOperation_tracks_by_id {T : Type} (name : string)
  (operation : Prog unit T) (rs : list string) (tokens : object)
  (w : World) :
  shutdownPhase (this w) = RUNNING →
  let op := length (heap (this w)) in
  let w1 := registered name rs w in
  let r := run operation w1 in
  Forall (λ '(method, m),
            JsMap.get method (pendingOperations (this (settle m tt w).1.2))
            = Some op)
    [("load-tokens", void (loadSavedTokens dirname));
     ("refresh-tokens", void refreshTokensIfNeeded);
     ("validate-tokens", void (validateTokens dirname));
     ("save-tokens", saveTokens dirname tokens);
     ("clear-tokens", clearTokens)]
  ∧ run (registerOperation name operation rs) w
  = (r.1, settled name op (status_of r.1) r.2)
  ∧ JsMap.get name (pendingOperations (this w1)) = Some op
  ∧ heap (this w1) !! op
    = Some {| id := name; status := in_progress; resources := rs;
              startTime := clock (env w) |}
  ∧ JsMap.get name
      (pendingOperations (this (settled name op (status_of r.1) r.2)))
    = None
  ∧ (is_Some (JsMap.get name (pendingOperations (this w))) →
     JsMap.size (pendingOperations (this w1))
     = JsMap.size (pendingOperations (this w))).
Proof.
  intros Hph op w1 r.
  split; [by apply public_methods_register_under_their_name|].
  split_and!.
  - apply injective_projections; cbn [fst snd].
    + apply (alone_run _ (λ r' _, r' = r.1)).
      subst r w1 op. revert Hph. destruct_world w. wsimp. intros ->.
      wp_run. apply alone_of_eval. intros w0'.
      unfold run, registered. wsimp.
      replace (alter _ (length hp) _) with
        (hp ++ [{| id := name; status := in_progress; resources := rs;
                   startTime := ck |}])
        by (rewrite <- (Nat.add_0_r (length hp)) at 1;
            by rewrite alter_app_r).
      destruct (eval operation _ _) as [[[a|e] l] w']; wsimp; by wp_run.
    + apply (alone_run _ (λ r' w',
        w' = settled name op (status_of r.1) r.2)).
      subst r w1 op. revert Hph. destruct_world w. wsimp. intros ->.
      wp_run. apply alone_of_eval. intros w0'.
      unfold run, registered. wsimp.
      replace (alter _ (length hp) _) with
        (hp ++ [{| id := name; status := in_progress; resources := rs;
                   startTime := ck |}])
        by (rewrite <- (Nat.add_0_r (length hp)) at 1;
            by rewrite alter_app_r).
      destruct (eval operation _ _) as [[[a|e] l] w']; wsimp; by wp_run.
  - apply JsMapFacts.get_set_eq.
  - subst w1 op. destruct_world w. unfold registered. wsimp.
    by rewrite lookup_app_r, Nat.sub_diag by done.
  - apply JsMapFacts.get_delete_eq.
  - apply JsMapFacts.size_set_present.
Qed.
(** *** One save among loads *)

Section interleaving_facts.
Context (tokens : object) (path : string) (tr0 : list event).

Lemma trace_ok_cons pre ev tr :
  read_ok tokens path pre ev → trace_ok tokens path pre tr0 tr →
  trace_ok tokens path pre tr0 (ev :: tr).
Proof.
  intros Hev (new & -> & Hnew). exists (ev :: new). split; [done|].
  by constructor.
Qed.

Lemma quiet_orphan_intro pre w0 w p :
  settled_form p →
  wp (G_load tokens path pre tr0) (R_load tokens path pre tr0) (λ _, False) p
    (λ _ _ w0 w, G_load tokens path pre tr0 w0 w) tt w0 w →
  quiet_orphan tokens path pre tr0 p.
Proof.
  intros Hp H w1. destruct p; try done. cbn in H. destruct H as [_ H].
  intros w' HR. by apply H.
Qed.
End interleaving_facts.

Ltac good_tac :=
  unfold good; wsimp;
  split_and!;
    [ reflexivity | reflexivity | eassumption
    | repeat (apply trace_ok_cons;
                [first [exact I | intros _; first [by left | by right]]|]);
      eassumption ].

Ltac conc_exec :=
  first
    [ eexists _, _; split; [wsimp; lookups; wsimp; reflexivity|]
    | match goal with
      | H : file_ok _ _ _ _ |- _ =>
          let H' := fresh "Hf" in
          pose proof H as H'; destruct H' as [H'|[H' ?]];
          (eexists _, _; split; [wsimp; lookups; wsimp; reflexivity|])
      end ].

Ltac load_resume :=
  let w' := fresh "w" in
  let HR := fresh "HR" in
  intros w' HR; destruct_world w';
  unfold R_load, good in HR;
  cbv beta iota zeta delta [env this files faults trace tokenPath] in HR;
  destruct HR as (-> & -> & ? & ?);
  conc_exec.

Ltac load_step :=
  cbv beta iota zeta;
  lazymatch goal with
  | |- wp (G_load _ _ _ _) _ _ (Await _ _) _ _ _ _ =>
      apply wp_await; [split; [good_tac|reflexivity]|load_resume]
  | |- G_load _ _ _ _ _ _ => split; [good_tac|reflexivity]
  | |- wp (G_load ?t ?p ?pre ?tr0) _ _ (Spawn _ _) _ _ ?w0 ?w =>
      split; [eapply (quiet_orphan_intro t p tr0 pre w0 w); [exact I|]|]
  end.

Lemma load_is_quiet tokens path pre tr0 w :
  match pre with Some t => valid_text t = true | None => True end →
  good tokens path pre tr0 w →
  wp (G_load tokens path pre tr0) (R_load tokens path pre tr0)
     (quiet_orphan tokens path pre tr0)
     (void (loadSavedTokens dirname))
     (λ _ _ w0 w, G_load tokens path pre tr0 w0 w) tt w w.
Proof.
  intros Hpre Hgood. destruct_world w. unfold good in Hgood.
  cbv beta iota zeta delta [env this files faults trace tokenPath] in Hgood.
  destruct Hgood as (-> & -> & Hfile & Htr).
  destruct pre as [[j|s]|]; cbn in Hpre; try done.
  all: try apply negb_true_iff in Hpre.
  all: repeat (load_step || wp_step).
Qed.

Ltac file_tac :=
  first
    [ eassumption
    | unfold file_ok;
      repeat first
        [ rewrite lookup_insert_eq
        | rewrite lookup_insert_ne by apply temp_path_ne
        | rewrite lookup_delete_ne by apply temp_path_ne ];
      first [left; eassumption | right; split; [reflexivity|eassumption]] ].

Ltac trace_tac :=
  repeat (apply trace_ok_cons;
            [first [exact I | intros _; first [by left | by right]]|]);
  eassumption.

Ltac save_good :=
  unfold G_save, good; wsimp;
  split_and!; [reflexivity | reflexivity | file_tac | trace_tac].

Ltac save_resume :=
  let w' := fresh "w" in
  let Hg := fresh "Hg" in
  let Hc := fresh "Hc" in
  intros w' [Hg Hc]; destruct_world w';
  unfold good, core in Hg, Hc;
  cbv beta iota zeta delta
    [env this files faults trace tokenPath shutdownPhase fileLock locks]
    in Hg, Hc;
  injection Hc as -> -> -> -> ->;
  destruct Hg as (_ & _ & _ & ?);
  eexists _, _; split; [wsimp; lookups; wsimp; reflexivity|].

Ltac save_step :=
  cbv beta iota zeta;
  lazymatch goal with
  | |- wp (G_save _ _ _ _) _ _ (Await _ _) _ _ _ _ =>
      apply wp_await; [save_good|save_resume]
  | |- G_save _ _ _ _ _ _ => save_good
  | |- wp (G_save ?t ?p ?pre ?tr0) _ _ (Spawn _ _) _ _ ?w0 ?w =>
      split; [eapply (quiet_orphan_intro t p tr0 pre w0 w); [exact I|]|]
  | |- wp (G_save _ _ _ _) _ _ (Sync _ _) _ _ _ ?w =>
      match w with
      | context [Build_Env _ _ _ _ ?en _ _] =>
          is_var en; destruct en as [|? ?]
      end
  end.

Lemma save_is_careful tokens path pre tr0 w :
  good tokens path pre tr0 w →
  files (env w) !! path = pre →
  JsMap.has path (locks (fileLock (this w))) = false →
  wp (G_save tokens path pre tr0) (R_save tokens path pre tr0)
     (quiet_orphan tokens path pre tr0)
     (saveTokens dirname tokens)
     (λ _ _ w0 w, G_save tokens path pre tr0 w0 w) tt w w.
Proof.
  intros Hgood. destruct_world w. unfold good in Hgood.
  cbv beta iota zeta delta [env this files faults trace tokenPath] in Hgood.
  destruct Hgood as (-> & -> & Hfile & Htr). wsimp. intros Hpre Hlk.
  destruct (invalid_format (JObj tokens)) eqn:Hv.
  all: repeat (wp_step || load_step || save_step).
Qed.

Section invariant.
Context (tokens : object) (path : string) (pre : option text)
  (tr0 : list event).
Local Abbreviation good := (good tokens path pre tr0).
Local Abbreviation G_load := (G_load tokens path pre tr0).
Local Abbreviation R_load := (R_load tokens path pre tr0).
Local Abbreviation G_save := (G_save tokens path pre tr0).
Local Abbreviation R_save := (R_save tokens path pre tr0).
Local Abbreviation quiet_orphan := (quiet_orphan tokens path pre tr0).
Local Abbreviation quiet := (quiet tokens path pre tr0).
Local Abbreviation careful := (careful tokens path pre tr0).
Local Abbreviation sys_inv := (sys_inv tokens path pre tr0).

Lemma careful_core p w w' : core w = core w' → careful p w → careful p w'.
Proof.
  intros Hc. unfold careful, suspended. destruct p; try done.
  intros H w1 [Hg Hc1]. apply H. split; [done|]. by rewrite Hc.
Qed.

Lemma quiet_of_orphan p : quiet_orphan p → quiet p.
Proof.
  intros H w. specialize (H w). unfold suspended in *.
  destruct p; try done. intros w' HR.
  eapply wp_orphans_mono; [|by apply H]. done.
Qed.

Lemma settle_quiet (m : Prog unit unit) w0 w :
  wp G_load R_load quiet_orphan m (λ _ _ w0 w, G_load w0 w) tt w0 w →
  G_load w0 (settle m tt w).1.2
  ∧ quiet (settle m tt w).1.1.1
  ∧ Forall quiet (settle m tt w).2.
Proof.
  intros H. apply wp_settle in H as [Hps Hp].
  destruct (settle m tt w) as [[[p' []] w2] ps]. cbn in *.
  split_and!.
  - destruct p'; try done. by destruct Hp.
  - intros w1. destruct p'; try done. cbn. intros w' HR.
    destruct Hp as [_ Hp]. by apply Hp.
  - eapply Forall_impl; [done|]. apply quiet_of_orphan.
Qed.

Lemma settle_careful (m : Prog unit unit) w0 w :
  wp G_save R_save quiet_orphan m (λ _ _ w0 w, G_save w0 w) tt w0 w →
  good (settle m tt w).1.2
  ∧ careful (settle m tt w).1.1.1 (settle m tt w).1.2
  ∧ Forall quiet (settle m tt w).2.
Proof.
  intros H. apply wp_settle in H as [Hps Hp].
  destruct (settle m tt w) as [[[p' []] w2] ps]. cbn in *.
  split_and!.
  - destruct p'; try done. by destruct Hp.
  - destruct p'; try done. cbn. intros w' HR.
    destruct Hp as [_ Hp]. by apply Hp.
  - eapply Forall_impl; [done|]. apply quiet_of_orphan.
Qed.

(** The tasks after a step: the task [i] is replaced or a task is added,
    and orphans are appended. *)
Lemma tasks_ok (isave : option nat) (w2 : World)
  (ts' ps : list (Prog unit unit)) :
  (∀ i p, ts' !! i = Some p →
     if decide (isave = Some i) then careful p w2 else quiet p) →
  Forall quiet ps →
  (∀ i, isave = Some i → i < length ts') →
  ∀ i p, (ts' ++ ps) !! i = Some p →
    if decide (isave = Some i) then careful p w2 else quiet p.
Proof.
  intros Hts' Hps Hlt i p Hi.
  apply lookup_app_Some in Hi as [Hi|[Hge Hi]]; [by apply Hts'|].
  case_decide as E; [apply Hlt in E; lia|].
  eapply Forall_lookup_1 in Hps; done.
Qed.

Section run.
Context (fs0 : gmap string text) (ph0 : ShutdownPhase)
  (lk0 : list (string * bool)).
Hypothesis Hpre : fs0 !! path = pre.
Hypothesis Hlk : JsMap.has path lk0 = false.
Hypothesis Hvalid :
  match pre with Some t => valid_text t = true | None => True end.
Local Abbreviation c0 := (fs0, [], ph0, lk0, path).

Lemma sys_inv_step (st : step) (isave : option nat) (s : Sys) :
  sys_inv c0 isave s →
  (st = Save → isave = None) →
  ∃ isave',
    sys_inv c0 isave' (sys_step (act dirname tokens st) s)
    ∧ if decide (st = Save) then isave' ≠ None else isave' = isave.
Proof using Hpre Hlk Hvalid.
  destruct s as [w ts]. intros (Hg & Hts & Hc & Hlt) Hsave.
  cbn [world tasks] in *. destruct st as [| |i].
  - (* the save is invoked *)
    rewrite (Hsave eq_refl) in *. specialize (Hc eq_refl).
    assert (files (env w) !! path = pre ∧
            JsMap.has path (locks (fileLock (this w))) = false) as [Hf Hl].
    { unfold core in Hc. by injection Hc as -> _ _ -> _. }
    pose proof (save_is_careful tokens path pre tr0 w Hg Hf Hl) as H.
    apply settle_careful in H. cbn [sys_step act world tasks].
    destruct (settle _ tt w) as [[[p' l'] w2] ps]. cbn [fst snd] in H.
    destruct H as (Hg2 & Hp' & Hps).
    exists (Some (length ts)). split; [|by case_decide]. split_and!.
    + done.
    + cbn [tasks world]. replace (ts ++ p' :: ps) with ((ts ++ [p']) ++ ps)
        by (by rewrite <- app_assoc).
      apply tasks_ok; [|done|].
      * intros i p Hi. apply lookup_app_Some in Hi as [Hi|[Hge Hi]].
        -- apply lookup_lt_Some in Hi as Hlen.
           case_decide as E; [injection E as E; lia|].
           specialize (Hts i p Hi). by case_decide.
        -- apply list_lookup_singleton_Some in Hi as [Hi <-].
           case_decide as E; [done|]. destruct E. f_equal. lia.
      * intros i [= <-]. rewrite length_app. cbn. lia.
    + done.
    + intros i [= <-]. cbn. rewrite length_app. cbn. lia.
  - (* a load is invoked *)
    pose proof (load_is_quiet tokens path pre tr0 w Hvalid Hg) as H.
    apply settle_quiet in H. cbn [sys_step act world tasks].
    destruct (settle _ tt w) as [[[p' l'] w2] ps]. cbn [fst snd] in H.
    destruct H as ([Hg2 Hc2] & Hp' & Hps).
    exists isave. split; [|by case_decide]. split_and!.
    + done.
    + cbn [tasks world]. replace (ts ++ p' :: ps) with ((ts ++ [p']) ++ ps)
        by (by rewrite <- app_assoc).
      apply tasks_ok; [|done|].
      * intros i p Hi. apply lookup_app_Some in Hi as [Hi|[Hge Hi]].
        -- specialize (Hts i p Hi). case_decide; [|done].
           by apply (careful_core _ w).
        -- apply list_lookup_singleton_Some in Hi as [Hi <-].
           case_decide as E; [apply Hlt in E; lia|done].
      * intros i E. apply Hlt in E. rewrite length_app. cbn. lia.
    + intros E. cbn. rewrite Hc2. by apply Hc.
    + intros i E. apply Hlt in E. cbn. rewrite length_app. cbn. lia.
  - (* task [i] is resumed *)
    cbn [sys_step act world tasks].
    destruct (ts !! i) as [[| | | |X c k|]|] eqn:Ei;
      try (exists isave; split; [done|by case_decide]).
    pose proof (Hts i _ Ei) as H. destruct (decide (isave = Some i)) as [E|E].
    + specialize (H w (conj Hg eq_refl)).
      apply settle_careful in H. destruct (exec c w) as [r w1].
      cbn [fst snd] in H.
      destruct (settle _ tt w1) as [[[p' l'] w2] ps]. cbn [fst snd] in H.
      destruct H as (Hg2 & Hp' & Hps).
      exists isave. split; [|by case_decide]. split_and!.
      * done.
      * cbn [tasks world]. apply tasks_ok; [|done|].
        -- intros j p Hj. apply list_lookup_insert_Some in Hj
             as [(<- & <- & _)|[Hne Hj]].
           ++ by case_decide.
           ++ case_decide as E'; [congruence|].
              specialize (Hts j p Hj). by case_decide.
        -- intros j Ej. rewrite length_insert. by apply Hlt.
      * intros E'. congruence.
      * intros j Ej. cbn. rewrite length_app, length_insert.
        apply Hlt in Ej. lia.
    + specialize (H w w Hg).
      apply settle_quiet in H. destruct (exec c w) as [r w1].
      cbn [fst snd] in H.
      destruct (settle _ tt w1) as [[[p' l'] w2] ps]. cbn [fst snd] in H.
      destruct H as ([Hg2 Hc2] & Hp' & Hps).
      exists isave. split; [|by case_decide]. split_and!.
      * done.
      * cbn [tasks world]. apply tasks_ok; [|done|].
        -- intros j p Hj. apply list_lookup_insert_Some in Hj
             as [(<- & <- & _)|[Hne Hj]].
           ++ by case_decide.
           ++ specialize (Hts j p Hj). case_decide; [|done].
              by apply (careful_core _ w).
        -- intros j Ej. rewrite length_insert. by apply Hlt.
      * intros E'. cbn. rewrite Hc2. by apply Hc.
      * intros j Ej. cbn. rewrite length_app, length_insert.
        apply Hlt in Ej. lia.
Qed.

Lemma sys_inv_run (schedule : list step) :
  ∀ (isave : option nat) (s : Sys),
  sys_inv c0 isave s →
  saves schedule ≤ match isave with Some _ => 0 | None => 1 end →
  ∃ isave', sys_inv c0 isave' (sys_run (act dirname tokens <$> schedule) s).
Proof using Hpre Hlk Hvalid.
  induction schedule as [|st schedule IH]; intros isave s Hinv Hn.
  { by exists isave. }
  destruct (decide (st = Save)) as [->|E].
  - assert (saves (Save :: schedule) = S (saves schedule)) as Hs
      by (unfold saves; by rewrite filter_cons_True).
    rewrite Hs in Hn. destruct isave; [lia|].
    destruct (sys_inv_step Save None s Hinv) as (isave' & Hinv' & Hs');
      [done|].
    rewrite decide_True in Hs' by done.
    cbn. apply (IH isave' _ Hinv'). destruct isave'; [lia|done].
  - assert (saves (st :: schedule) = saves schedule) as Hs
      by (unfold saves; by rewrite filter_cons_False).
    rewrite Hs in Hn.
    destruct (sys_inv_step st isave s Hinv) as (isave' & Hinv' & Hs');
      [done|].
    rewrite decide_False in Hs' by done. subst isave'.
    cbn. by apply (IH isave _ Hinv').
Qed.
End run.
End invariant.


(** *** The helpers and the other methods *)

(** ** Running composed trees *)

Lemma eval_bind {L A} (m : Prog L A) :
  ∀ B (kont : A → Prog L B) l w,
  eval (bind m kont) l w
  = match eval m l w with
    | (Ok a, l', w') => eval (kont a) l' w'
    | (Err e, l', w') => (Err e, l', w')
    end.
Proof.
  prog_induction m; intros B kont l w; cbn; try done.
  - destruct (f w) as [x w']. apply IH.
  - destruct (f l) as [x l']. apply IH.
  - destruct (exec c w) as [r w']. apply IH.
Qed.

Lemma eval_try_catch {L A} (m : Prog L A) :
  ∀ (h : error → Prog L A) l w,
  eval (try_catch m h) l w
  = match eval m l w with
    | (Ok a, l', w') => (Ok a, l', w')
    | (Err e, l', w') => eval (h e) l' w'
    end.
Proof.
  prog_induction m; intros h l w; cbn; try done.
  - destruct (f w) as [x w']. apply IH.
  - destruct (f l) as [x l']. apply IH.
  - destruct (exec c w) as [r w']. apply IH.
Qed.

Lemma eval_try_finally {L A} (m : Prog L A) :
  ∀ (fin : Prog L unit) l w,
  eval (try_finally m fin) l w
  = match eval m l w with
    | (r, l', w') =>
        match eval fin l' w' with
        | (Ok _, l'', w'') => (r, l'', w'')
        | (Err e, l'', w'') => (Err e, l'', w'')
        end
    end.
Proof.
  prog_induction m; intros fin l w; cbn.
  - rewrite eval_bind. by destruct (eval fin l w) as [[[[]|?] ?] ?].
  - rewrite eval_bind. by destruct (eval fin l w) as [[[[]|?] ?] ?].
  - destruct (f w) as [x w']. apply IH.
  - destruct (f l) as [x l']. apply IH.
  - destruct (exec c w) as [r w']. apply IH.
  - apply IH.
Qed.

Lemma run_sync {A X} (f : World → X * World) (kont : X → Prog unit A) w :
  run (Sync f kont) w = run (kont (f w).1) (f w).2.
Proof. unfold run. cbn. by destruct (f w). Qed.

Lemma run_await {A X} (c : io X) (kont : result X → Prog unit A) w :
  run (Await c kont) w = run (kont (exec c w).1) (exec c w).2.
Proof. unfold run. cbn. by destruct (exec c w). Qed.

Lemma run_ret {A} (a : A) w : run (Ret a) w = (Ok a, w).
Proof. done. Qed.

Lemma run_throw {A} (e : error) w : run (A:=A) (Throw e) w = (Err e, w).
Proof. done. Qed.

Lemma run_bind {A B} (m : Prog unit A) (kont : A → Prog unit B) w :
  run (bind m kont) w
  = match run m w with
    | (Ok a, w') => run (kont a) w'
    | (Err e, w') => (Err e, w')
    end.
Proof.
  unfold run. rewrite eval_bind.
  by destruct (eval m tt w) as [[[a|e] []] w'].
Qed.

Lemma run_try_catch {A} (m : Prog unit A) (h : error → Prog unit A) w :
  run (try_catch m h) w
  = match run m w with
    | (Ok a, w') => (Ok a, w')
    | (Err e, w') => run (h e) w'
    end.
Proof.
  unfold run. rewrite eval_try_catch.
  by destruct (eval m tt w) as [[[a|e] []] w'].
Qed.

(** X4.  [withRetry]: no attempt at all throws the unset [lastError]; a
    success is returned as it is; the failure of the only attempt left
    is thrown as it is, with no delay; any other failure is followed by
    300 ms and by the attempts that are left. *)
Theorem withRetry_attempts {T : Type} (operation : Prog unit T) (n : nat)
  (w : World) :
  let r := run operation w in
  run (withRetry operation 0) w = (Err Undefined, w)
  ∧ (∀ a, r.1 = Ok a → run (withRetry operation (S n)) w = r)
  ∧ (∀ e, r.1 = Err e → run (withRetry operation 1) w = r)
  ∧ (∀ e, r.1 = Err e →
       run (withRetry operation (S (S n))) w
       = run (withRetry operation (S n))
           (with_env (λ env, set_clock (clock env + 300) env) r.2)).
Proof.
  intros r. subst r. unfold withRetry. split_and!.
  - done.
  - intros a Ha. rewrite withRetry_from_S, run_try_catch.
    destruct (run operation w) as [[a'|e] w']; [done|discriminate].
  - intros e He. rewrite withRetry_from_S, run_try_catch.
    destruct (run operation w) as [[a'|e'] w']; [discriminate|].
    cbn in He. injection He as ->. by case_decide.
  - intros e He. rewrite withRetry_from_S, run_try_catch.
    destruct (run operation w) as [[a'|e'] w']; [discriminate|].
    case_decide; [|done]. rewrite run_bind. cbn [fst snd].
    destruct w' as [env' this']. done.
Qed.

Lemma run_try_finally {A} (m : Prog unit A) (fin : Prog unit unit) w :
  run (try_finally m fin) w
  = match run m w with
    | (r, w') =>
        match run fin w' with
        | (Ok _, w'') => (r, w'')
        | (Err e, w'') => (Err e, w'')
        end
    end.
Proof.
  unfold run. rewrite eval_try_finally.
  destruct (eval m tt w) as [[r []] w'].
  by destruct (eval fin tt w') as [[[[]|e] []] w''].
Qed.

Lemma has_delete_eq {V} k (m : list (string * V)) :
  JsMap.has k (JsMap.delete k m) = false.
Proof.
  unfold JsMap.has. rewrite JsMapFacts.get_delete_eq.
  apply bool_decide_eq_false_2. by intros [? ?].
Qed.

Lemma acquire_poll_free (filePath : string) (start timeout : Z) (n : nat)
  (w : World) :
  JsMap.has filePath (locks (fileLock (this w))) = false →
  (clock (env w) - start <? timeout)%Z = true →
  run (acquire_poll n filePath start timeout) w = (Ok true, lock filePath w).
Proof.
  intros Hfree Hck. rewrite acquire_poll_eq. destruct_world w.
  cbn in Hfree. cbn [clock env] in Hck.
  cbn -[acquire_poll Z.ltb Z.sub]. rewrite run_sync. cbn [fst snd clock env].
  rewrite Hck, run_sync. cbn [fst snd this fileLock locks].
  by rewrite Hfree.
Qed.

(** X2.  [withLock] on a free lock: the operation runs with the lock held, and
    the lock is released whether the operation returns or throws; the
    result or the error is the operation's. *)
Theorem withLock_runs_and_releases {T : Type} (filePath : string)
  (operation : Prog unit T) (w : World) :
  JsMap.has filePath (locks (fileLock (this w))) = false →
  let r := run operation (lock filePath w) in
  run (withLock filePath operation) w = (r.1, unlock filePath r.2)
  ∧ JsMap.has filePath
      (locks (fileLock (this (run (withLock filePath operation) w).2)))
    = false.
Proof.
  intros Hfree r.
  assert (run (withLock filePath operation) w = (r.1, unlock filePath r.2))
    as E.
  { subst r. unfold withLock, acquire. rewrite run_bind.
    assert (run
              (startTime <- Date_now;;
               acquire_poll (Z.to_nat (5000 / 100)) filePath startTime 5000)
              w = (Ok true, lock filePath w)) as ->.
    { rewrite run_bind. cbn -[acquire_poll Z.to_nat Z.div].
      apply acquire_poll_free; [done|]. by rewrite Z.sub_diag. }
    rewrite run_bind. cbn -[try_finally release].
    rewrite run_try_finally.
    by destruct (run operation (lock filePath w)) as [r' w']. }
  split; [done|]. rewrite E. destruct r as [r' w']. destruct_world w'.
  apply has_delete_eq.
Qed.

Lemma acquire_poll_held (filePath : string) (start : Z) (n : nat) :
  ∀ (d : Z) (w : World),
  JsMap.has filePath (locks (fileLock (this w))) = true →
  clock (env w) = (start + d)%Z →
  run (acquire_poll n filePath start (d + 100 * Z.of_nat n)) w
  = (Ok false, sleep (100 * Z.of_nat n) w).
Proof.
  induction n as [|n IH]; intros d w Hheld Hck.
  - rewrite acquire_poll_eq. destruct_world w. cbn in Hheld, Hck. subst ck.
    unfold Date_now, gets. cbn [bind]. rewrite run_sync.
    cbn [fst snd clock env].
    assert ((start + d - start <? d + 100 * Z.of_nat 0)%Z = false) as ->
      by (apply Z.ltb_ge; lia).
    unfold run, sleep. cbn [eval]. wsimp. do 3 f_equal. lia.
  - rewrite acquire_poll_eq. destruct_world w. cbn in Hheld, Hck. subst ck.
    unfold Date_now, gets, await. cbn [bind]. rewrite run_sync.
    cbn [fst snd clock env].
    assert ((start + d - start <? d + 100 * Z.of_nat (S n))%Z = true) as ->
      by (apply Z.ltb_lt; lia).
    rewrite run_sync. cbn [fst snd this fileLock locks]. rewrite Hheld.
    cbn [negb]. rewrite run_await. cbn [exec on_env fst snd env this bind].
    replace (d + 100 * Z.of_nat (S n))%Z
      with ((d + 100) + 100 * Z.of_nat n)%Z by lia.
    rewrite (IH (d + 100)%Z); [|done|cbn; lia].
    unfold sleep. wsimp. do 3 f_equal. lia.
Qed.

(** X3.  [withLock] on a lock that is held and that nobody releases: the
    acquisition polls every 100 ms for 5 seconds, then [withLock] throws;
    the operation is not run and the lock is left to its holder. *)
Theorem withLock_times_out {T : Type} (filePath : string)
  (operation : Prog unit T) (w : World) :
  JsMap.has filePath (locks (fileLock (this w))) = true →
  run (withLock filePath operation) w
  = (Err (Error ("Failed to acquire lock for " +:+ filePath)), sleep 5000 w).
Proof.
  intros Hheld. unfold withLock, acquire. rewrite run_bind, run_bind.
  unfold Date_now, gets. rewrite run_sync, run_ret. cbn [fst snd].
  change (Z.to_nat (5000 / 100)) with 50%nat.
  change 5000%Z with (0 + 100 * Z.of_nat 50)%Z at 1.
  rewrite acquire_poll_held; [|done|lia].
  rewrite run_bind. done.
Qed.

(** X1.  [createTempFile] names a file beside the base file and tracks it
    under the operation id; it creates nothing on disk.  The path is a
    temporary file until it is released. *)
Theorem temp_file_lifecycle (baseFile operationId : string) (w : World) :
  let r := run (createTempFile baseFile operationId) w in
  ∃ tempPath,
    r.1 = Ok tempPath
    ∧ tempPath ≠ baseFile
    ∧ JsMap.get tempPath (tempFiles (tempFileManager (this r.2)))
      = Some operationId
    ∧ run (isTemporaryFile tempPath) r.2 = (Ok true, r.2)
    ∧ (run (releaseTemporaryFile tempPath;; isTemporaryFile tempPath) r.2).1
      = Ok false
    ∧ files (env r.2) = files (env w).
Proof.
  destruct_world w.
  destruct en as [|rnd en]; cbn -[JsMap.has JsMap.set JsMap.delete JsMap.get].
  all: eexists; split_and!;
    [ reflexivity | apply temp_path_ne | apply JsMapFacts.get_set_eq
    | unfold run; cbn -[JsMap.has JsMap.set JsMap.delete JsMap.get];
      by rewrite JsMapFacts.has_set_eq
    | unfold run; cbn -[JsMap.has JsMap.set JsMap.delete JsMap.get];
      by rewrite has_delete_eq
    | done ].
Qed.

(** X8.  [ensureTokenDirectoryExists] raises exactly when [mkdir] fails with a
    code other than EEXIST, and then with the error of [mkdir]; otherwise
    it returns, and when [mkdir] ran the directory of the token path
    exists. *)
Theorem ensureTokenDirectoryExists_outcomes (w : World) :
  let r := run (ensureTokenDirectoryExists dirname) w in
  match faults (env w) with
  | Some code :: _ =>
      r.1 = (if decide (code = "EEXIST") then Ok tt
             else Err (ErrnoException code))
      ∧ dirs (env r.2) = dirs (env w)
  | _ => r.1 = Ok tt ∧ dirname (tokenPath (this w)) ∈ dirs (env r.2)
  end
  ∧ files (env r.2) = files (env w).
Proof.
  destruct_world w. unfold run. destruct fl as [|[code|] fl]; cbn.
  - split; [split; [done|set_solver]|done].
  - destruct (decide (code = "EEXIST")) as [->|Hne]; cbn.
    + done.
    + case_decide; done.
  - split; [split; [done|set_solver]|done].
Qed.

(** X9.  [clearTokensInternal] never raises: it empties the credentials in
    memory and removes the token file when the unlink runs; it touches no
    other file. *)
Theorem clearTokens_is_best_effort (w : World) :
  let r := run clearTokensInternal w in
  r.1 = Ok tt
  ∧ credentials (oauth2Client (this r.2)) = ∅
  ∧ (∀ p, p ≠ tokenPath (this w) →
       files (env r.2) !! p = files (env w) !! p)
  ∧ (faults (env w) = [] → files (env r.2) !! tokenPath (this w) = None)
  ∧ (shutdownPhase (this w) = RUNNING → (run clearTokens w).1 = Ok tt).
Proof.
  intros r. subst r. split_and!.
  - apply (alone_run _ (λ r _, r = Ok tt)). destruct_world w.
    wp_explore; eauto.
  - apply (alone_run _ (λ _ w', credentials (oauth2Client (this w')) = ∅)).
    destruct_world w. wp_explore; eauto.
  - intros p Hp. revert Hp.
    apply (alone_run _ (λ _ w', p ≠ tokenPath (this w) →
             files (env w') !! p = files (env w) !! p)).
    destruct_world w. wsimp. wp_explore; eauto.
    all: intros Hp; by rewrite lookup_delete_ne.
  - apply (alone_run _ (λ _ w', faults (env w) = [] →
             files (env w') !! tokenPath (this w) = None)).
    destruct_world w. wsimp. wp_explore; eauto; try done.
    all: intros _; apply lookup_delete_eq.
  - intros Hph. apply (alone_run _ (λ r _, r = Ok tt)).
    revert Hph. destruct_world w. wsimp. intros ->. wp_explore; eauto.
Qed.

Lemma load_of_valid_record (w : World) (tokens : json) :
  files (env w) !! tokenPath (this w) = Some (Json tokens) →
  invalid_format tokens = false →
  faults (env w) = [] →
  let r := run (loadSavedTokensInternal dirname) w in
  r.1 = Ok true
  ∧ credentials (oauth2Client (this r.2)) = own_props tokens
  ∧ files (env r.2) = files (env w).
Proof.
  intros Hf Hv Hfl r. subst r.
  apply (alone_run _ (λ r w', r = Ok true
    ∧ credentials (oauth2Client (this w')) = own_props tokens
    ∧ files (env w') = files (env w))).
  revert Hf Hfl. destruct_world w. wsimp. intros Hf ->.
  repeat wp_step. done.
Qed.

(** X10.  A well-formed record on disk: [loadSavedTokensInternal] returns true
    and installs the record as the credentials in memory; the files are
    left as they are. *)
Theorem load_installs_the_record (w : World) (tokens : json) :
  files (env w) !! tokenPath (this w) = Some (Json tokens) →
  invalid_format tokens = false →
  faults (env w) = [] →
  let r := run (loadSavedTokensInternal dirname) w in
  r.1 = Ok true
  ∧ credentials (oauth2Client (this r.2)) = own_props tokens
  ∧ files (env r.2) = files (env w).
Proof.
  intros Hf Hv Hfl r. subst r.
  apply (alone_run _ (λ r w', r = Ok true
    ∧ credentials (oauth2Client (this w')) = own_props tokens
    ∧ files (env w') = files (env w))).
  revert Hf Hfl. destruct_world w. wsimp. intros Hf ->.
  repeat wp_step. done.
Qed.

(** X16.  [refreshTokensIfNeededInternal] never raises and touches no file.
    When it refreshes, a response with an access token replaces the
    credentials in memory as a whole, and a response without one is
    answered with false and leaves them. *)
Theorem refresh_response_handling (w : World) :
  let c := credentials (oauth2Client (this w)) in
  let r := run refreshTokensIfNeededInternal w in
  (∃ b, r.1 = Ok b)
  ∧ files (env r.2) = files (env w)
  ∧ (∀ newTokens rest,
       isExpired c (clock (env w)) = true →
       truthy (c !! "refresh_token") = true →
       exchanges (env w) = Ok newTokens :: rest →
       if truthy (newTokens !! "access_token")
       then r.1 = Ok true ∧ credentials (oauth2Client (this r.2)) = newTokens
       else r.1 = Ok false ∧ credentials (oauth2Client (this r.2)) = c).
Proof.
  intros c r. subst c r. split_and!.
  - apply (alone_run _ (λ r _, ∃ b, r = Ok b)). destruct_world w.
    destruct ex as [|[?|?] ?]; wp_explore; eauto.
  - apply (alone_run _ (λ _ w', files (env w') = files (env w))).
    destruct_world w. destruct ex as [|[?|?] ?]; wp_explore; eauto.
  - intros newTokens rest He Hr Hx.
    destruct (truthy (newTokens !! "access_token")) eqn:Ha.
    + apply (alone_run _ (λ r w', r = Ok true
        ∧ credentials (oauth2Client (this w')) = newTokens)).
      revert He Hr Hx. destruct_world w. wsimp. intros He Hr ->.
      repeat wp_step. done.
    + apply (alone_run _ (λ r w', r = Ok false
        ∧ credentials (oauth2Client (this w'))
          = credentials (oauth2Client (this w)))).
      revert He Hr Hx. destruct_world w. wsimp. intros He Hr ->.
      repeat wp_step. done.
Qed.

(** X18.  [syncSaveTokens] outside phase [COMPLETE] never raises.  When no call
    fails it writes the record in place and installs it in memory.  When
    the write fails after the file has been opened, the token file is
    left empty and the credentials in memory are not changed. *)
Theorem syncSaveTokens_writes_in_place (w : World) (tokens : object) :
  shutdownPhase (this w) ≠ COMPLETE →
  let r := run (syncSaveTokens dirname tokens) w in
  r.1 = Ok tt
  ∧ (faults (env w) = [] →
     files (env r.2) !! tokenPath (this w) = Some (JSON_stringify tokens)
     ∧ credentials (oauth2Client (this r.2)) = tokens)
  ∧ (∀ code rest,
       dirname (tokenPath (this w)) ∈ dirs (env w) →
       faults (env w) = None :: Some code :: rest →
       files (env r.2) !! tokenPath (this w) = Some (Garbage "")
       ∧ credentials (oauth2Client (this r.2))
         = credentials (oauth2Client (this w))).
Proof.
  intros Hph r. subst r. split_and!.
  - apply (alone_run _ (λ r _, r = Ok tt)). revert Hph. destruct_world w.
    wsimp. intros Hph.
    destruct fl as [|[?|] [|[?|] [|[?|] ?]]]; wp_explore; eauto.
  - intros Hfl. apply (alone_run _ (λ _ w',
      files (env w') !! tokenPath (this w) = Some (JSON_stringify tokens)
      ∧ credentials (oauth2Client (this w')) = tokens)).
    revert Hph Hfl. destruct_world w. wsimp. intros Hph ->.
    wp_explore; eauto.
    all: split; [by rewrite lookup_insert_eq|done].
  - intros code rest Hd Hfl. apply (alone_run _ (λ _ w',
      files (env w') !! tokenPath (this w) = Some (Garbage "")
      ∧ credentials (oauth2Client (this w'))
        = credentials (oauth2Client (this w)))).
    revert Hph Hd Hfl. destruct_world w. wsimp. intros Hph Hd ->.
    apply (bool_decide_eq_true_2 _) in Hd.
    wp_explore; eauto.
    all: split; [by rewrite lookup_insert_eq|done].
Qed.

(** X19.  [emergencyShutdown] never raises and ends in phase [COMPLETE] with
    the listener removed, whatever the phase it starts from and whichever
    calls fail.  Without an access token in memory it makes no call on the
    file system; with one, and no failing call, it leaves the credentials
    in the token file. *)
Theorem emergencyShutdown_completes (w : World) :
  let c := credentials (oauth2Client (this w)) in
  let r := run (emergencyShutdown dirname) w in
  r.1 = Ok tt
  ∧ shutdownPhase (this r.2) = COMPLETE
  ∧ tokenListener (this r.2) = false
  ∧ credentials (oauth2Client (this r.2)) = c
  ∧ (truthy (c !! "access_token") = false → env r.2 = env w)
  ∧ (truthy (c !! "access_token") = true → faults (env w) = [] →
     files (env r.2) !! tokenPath (this w) = Some (JSON_stringify c)).
Proof.
  intros c r. subst c r. split_and!.
  - apply (alone_run _ (λ r _, r = Ok tt)). destruct_world w.
    destruct fl as [|[?|] [|[?|] [|[?|] ?]]]; wp_explore; eauto.
  - apply (alone_run _ (λ _ w', shutdownPhase (this w') = COMPLETE)).
    destruct_world w.
    destruct fl as [|[?|] [|[?|] [|[?|] ?]]]; wp_explore; eauto.
  - apply (alone_run _ (λ _ w', tokenListener (this w') = false)).
    destruct_world w.
    destruct fl as [|[?|] [|[?|] [|[?|] ?]]]; wp_explore; eauto.
  - apply (alone_run _ (λ _ w', credentials (oauth2Client (this w'))
                                = credentials (oauth2Client (this w)))).
    destruct_world w.
    destruct fl as [|[?|] [|[?|] [|[?|] ?]]]; wp_explore; eauto.
  - intros Ha. apply (alone_run _ (λ _ w', env w' = env w)).
    revert Ha. destruct_world w. wsimp. intros Ha. wp_explore; eauto.
  - intros Ha Hfl. apply (alone_run _ (λ _ w',
      files (env w') !! tokenPath (this w)
      = Some (JSON_stringify (credentials (oauth2Client (this w)))))).
    revert Ha Hfl. destruct_world w. wsimp. intros Ha ->.
    wp_explore; eauto.
    all: by rewrite lookup_insert_eq.
Qed.

Lemma valid_has_access_token (tokens : json) :
  invalid_format tokens = false →
  ∃ m, tokens = JObj m ∧ truthy (m !! "access_token") = true.
Proof.
  unfold invalid_format. intros H.
  apply orb_false_elim in H as [H H3]. apply orb_false_elim in H as [H1 H2].
  apply negb_false_iff in H2, H3.
  destruct tokens as [|b|z|s|l|m]; try done. by exists m.
Qed.


Lemma delete_set_eq {V} k (v : V) (m : list (string * V)) :
  JsMap.delete k (JsMap.set k v m) = JsMap.delete k m.
Proof.
  unfold JsMap.delete. induction m as [|[k' v'] m IH]; simpl.
  - by rewrite bool_decide_eq_true_2.
  - destruct (decide (k' = k)) as [->|Hne]; simpl.
    + by rewrite bool_decide_eq_true_2.
    + rewrite bool_decide_eq_false_2 by done. simpl. by rewrite IH.
Qed.

Lemma delete_absent {V} k (m : list (string * V)) :
  JsMap.has k m = false → JsMap.delete k m = m.
Proof.
  unfold JsMap.has, JsMap.get, JsMap.delete.
  induction m as [|[k' v'] m IH]; simpl; [done|].
  destruct (bool_decide (k' = k)) eqn:E; simpl.
  - done.
  - intros H. by rewrite IH.
Qed.

(** X11.  A save of a well-formed record, with the manager running, the lock
    free and no failing call: the record is in the token file and in
    memory, the lock is free again, the temp file is gone and no longer
    tracked, and a load that follows returns the record. *)
Theorem save_then_load (w : World) (tokens : object) :
  shutdownPhase (this w) = RUNNING →
  JsMap.has (tokenPath (this w)) (locks (fileLock (this w))) = false →
  faults (env w) = [] →
  invalid_format (JObj tokens) = false →
  let s := run (frame None (saveTokensInternal dirname tokens)) w in
  let l := run (loadSavedTokensInternal dirname) s.2 in
  s.1 = Ok tt
  ∧ credentials (oauth2Client (this s.2)) = tokens
  ∧ locks (fileLock (this s.2)) = locks (fileLock (this w))
  ∧ (∃ tempPath,
       tempPath ≠ tokenPath (this w)
       ∧ files (env s.2)
         = <[tokenPath (this w) := JSON_stringify tokens]>
             (delete tempPath (files (env w)))
       ∧ tempFiles (tempFileManager (this s.2))
         = JsMap.delete tempPath (tempFiles (tempFileManager (this w))))
  ∧ l.1 = Ok true
  ∧ credentials (oauth2Client (this l.2)) = tokens.
Proof.
  intros Hph Hlk Hfl Hv s l.
  assert (s.1 = Ok tt
    ∧ credentials (oauth2Client (this s.2)) = tokens
    ∧ locks (fileLock (this s.2)) = locks (fileLock (this w))
    ∧ (∃ tempPath,
         tempPath ≠ tokenPath (this w)
         ∧ files (env s.2)
           = <[tokenPath (this w) := JSON_stringify tokens]>
               (delete tempPath (files (env w)))
         ∧ tempFiles (tempFileManager (this s.2))
           = JsMap.delete tempPath (tempFiles (tempFileManager (this w))))
    ∧ faults (env s.2) = []
    ∧ tokenPath (this s.2) = tokenPath (this w)) as H.
  { subst s l.
    apply (alone_run _ (λ r w', r = Ok tt
      ∧ credentials (oauth2Client (this w')) = tokens
      ∧ locks (fileLock (this w')) = locks (fileLock (this w))
      ∧ (∃ tempPath,
           tempPath ≠ tokenPath (this w)
           ∧ files (env w')
             = <[tokenPath (this w) := JSON_stringify tokens]>
                 (delete tempPath (files (env w)))
           ∧ tempFiles (tempFileManager (this w'))
             = JsMap.delete tempPath (tempFiles (tempFileManager (this w))))
      ∧ faults (env w') = []
      ∧ tokenPath (this w') = tokenPath (this w))).
    revert Hph Hlk Hfl. destruct_world w. wsimp. intros -> Hlk ->.
    destruct en as [|rnd en]; repeat wp_step.
    all: split_and!; try done.
    all: try (by rewrite delete_set_eq, delete_absent).
    all: match goal with |- context [JsMap.set ?p _ _] => exists p end.
    all: split_and!; [apply temp_path_ne| |apply delete_set_eq].
    all: by rewrite !delete_insert_eq. }
  destruct H as (H1 & H2 & H3 & (tempPath & Hne & H4 & H5) & H6 & H7).
  destruct (load_of_valid_record s.2 (JObj tokens)) as (L1 & L2 & _);
    [by rewrite H7, H4, lookup_insert_eq|done|done|].
  split_and!; try done. by exists tempPath.
Qed.

(** X12.  A save of a record without access token: the verification of the temp
    file fails, the error is thrown to the caller, and nothing of the save
    is left: the token file and the credentials in memory are what they
    were, the lock is free, the temp file is removed and released. *)
Theorem rejected_save_leaves_nothing (w : World) (tokens : object) :
  shutdownPhase (this w) = RUNNING →
  JsMap.has (tokenPath (this w)) (locks (fileLock (this w))) = false →
  faults (env w) = [] →
  truthy (tokens !! "access_token") = false →
  let s := run (frame None (saveTokensInternal dirname tokens)) w in
  s.1 = Err (Error "Token verification failed, invalid token format")
  ∧ files (env s.2) !! tokenPath (this w)
    = files (env w) !! tokenPath (this w)
  ∧ credentials (oauth2Client (this s.2))
    = credentials (oauth2Client (this w))
  ∧ locks (fileLock (this s.2)) = locks (fileLock (this w))
  ∧ ∃ tempPath,
      files (env s.2) = delete tempPath (files (env w))
      ∧ tempFiles (tempFileManager (this s.2))
        = JsMap.delete tempPath (tempFiles (tempFileManager (this w))).
Proof.
  intros Hph Hlk Hfl Ha s. subst s.
  apply (alone_run _ (λ r w',
    r = Err (Error "Token verification failed, invalid token format")
    ∧ files (env w') !! tokenPath (this w)
      = files (env w) !! tokenPath (this w)
    ∧ credentials (oauth2Client (this w'))
      = credentials (oauth2Client (this w))
    ∧ locks (fileLock (this w')) = locks (fileLock (this w))
    ∧ ∃ tempPath,
        files (env w') = delete tempPath (files (env w))
        ∧ tempFiles (tempFileManager (this w'))
          = JsMap.delete tempPath (tempFiles (tempFileManager (this w))))).
  revert Hph Hlk Hfl. destruct_world w. wsimp. intros -> Hlk ->.
  assert (invalid_format (JObj tokens) = true) as Hv
    by (unfold invalid_format; cbn; by rewrite Ha).
  destruct en as [|rnd en]; repeat wp_step.
  all: split_and!; try done.
  all: try (by rewrite lookup_delete_ne, !lookup_insert_ne
                 by apply temp_path_ne).
  all: try (by rewrite delete_set_eq, delete_absent).
  all: match goal with |- context [JsMap.set ?p _ _] => exists p end.
  all: split; [by rewrite !delete_insert_eq|].
  all: by rewrite delete_idemp || by rewrite ?delete_set_eq.
Qed.

(** X13.  The rename fails on its three attempts: the save waits 300 ms after
    the first and after the second, then copies the temp file onto the
    token path.  The save returns normally and ends as a save whose rename
    works: the record is in the token file and in memory, the temp file
    is removed and released, the lock is free. *)
Theorem save_falls_back_to_copy (w : World) (tokens : object)
  (c1 c2 c3 : string) :
  shutdownPhase (this w) = RUNNING →
  JsMap.has (tokenPath (this w)) (locks (fileLock (this w))) = false →
  faults (env w) = [None; None; None; None; Some c1; Some c2; Some c3] →
  invalid_format (JObj tokens) = false →
  let s := run (frame None (saveTokensInternal dirname tokens)) w in
  s.1 = Ok tt
  ∧ credentials (oauth2Client (this s.2)) = tokens
  ∧ locks (fileLock (this s.2)) = locks (fileLock (this w))
  ∧ clock (env s.2) = (clock (env w) + 300 + 300)%Z
  ∧ ∃ tempPath,
      tempPath ≠ tokenPath (this w)
      ∧ files (env s.2)
        = <[tokenPath (this w) := JSON_stringify tokens]>
            (delete tempPath (files (env w)))
      ∧ tempFiles (tempFileManager (this s.2))
        = JsMap.delete tempPath (tempFiles (tempFileManager (this w))).
Proof.
  intros Hph Hlk Hfl Hv s. subst s.
  apply (alone_run _ (λ r w', r = Ok tt
    ∧ credentials (oauth2Client (this w')) = tokens
    ∧ locks (fileLock (this w')) = locks (fileLock (this w))
    ∧ clock (env w') = (clock (env w) + 300 + 300)%Z
    ∧ ∃ tempPath,
        tempPath ≠ tokenPath (this w)
        ∧ files (env w')
          = <[tokenPath (this w) := JSON_stringify tokens]>
              (delete tempPath (files (env w)))
        ∧ tempFiles (tempFileManager (this w'))
          = JsMap.delete tempPath (tempFiles (tempFileManager (this w))))).
  revert Hph Hlk Hfl. destruct_world w. wsimp. intros -> Hlk ->.
  destruct en as [|rnd en].
  - pose proof (temp_path_ne tp (pretty ck +:+ "." +:+ "" +:+ ".tmp")) as Hne.
    pose proof (not_eq_sym Hne) as Hne'.
    repeat wp_step.
    all: try match goal with
             | H : ¬ (_ ≠ _) |- _ => by (exfalso; apply H)
             end.
    split_and!; try done.
    + rewrite delete_set_eq. by apply delete_absent.
    + eexists. split_and!; [exact Hne| |apply delete_set_eq].
      rewrite !delete_insert_ne by done.
      by rewrite insert_insert_eq, !delete_insert_eq.
  - pose proof (temp_path_ne tp (pretty ck +:+ "." +:+ rnd +:+ ".tmp"))
      as Hne.
    pose proof (not_eq_sym Hne) as Hne'.
    repeat wp_step.
    all: try match goal with
             | H : ¬ (_ ≠ _) |- _ => by (exfalso; apply H)
             end.
    split_and!; try done.
    + rewrite delete_set_eq. by apply delete_absent.
    + eexists. split_and!; [exact Hne| |apply delete_set_eq].
      rewrite !delete_insert_ne by done.
      by rewrite insert_insert_eq, !delete_insert_eq.
Qed.


(** X14.  What [refreshTokensInternal] persists, with the manager running, the
    lock free and no failing call: over a token file that is not JSON or
    that holds [null], the new tokens alone; over a record, when the new
    tokens bring a refresh token, the record with every field of the new
    tokens written over it. *)
Theorem refresh_merge_edges (w : World) (newTokens : object) :
  shutdownPhase (this w) = RUNNING →
  JsMap.has (tokenPath (this w)) (locks (fileLock (this w))) = false →
  faults (env w) = [] →
  let r := run (frame None (refreshTokensInternal dirname newTokens)) w in
  let persisted := files (env r.2) !! tokenPath (this w) in
  r.1 = Ok tt
  ∧ (∀ garbage,
       files (env w) !! tokenPath (this w) = Some (Garbage garbage) →
       persisted = Some (JSON_stringify newTokens))
  ∧ (files (env w) !! tokenPath (this w) = Some (Json JNull) →
     persisted = Some (JSON_stringify newTokens))
  ∧ (∀ cur,
       files (env w) !! tokenPath (this w) = Some (Json (JObj cur)) →
       truthy (newTokens !! "refresh_token") = true →
       persisted = Some (JSON_stringify (spread cur newTokens))).
Proof.
  intros Hph Hlk Hfl r persisted. subst persisted r. split_and!.
  - apply (alone_run _ (λ r _, r = Ok tt)).
    revert Hph Hlk Hfl. destruct_world w. wsimp. intros -> Hlk ->.
    destruct en as [|rnd en]; wp_explore; eauto.
  - intros garbage Hf. apply (alone_run _ (λ _ w',
      files (env w') !! tokenPath (this w)
      = Some (JSON_stringify newTokens))).
    revert Hph Hlk Hfl Hf. destruct_world w. wsimp. intros -> Hlk -> Hf.
    destruct en as [|rnd en]; repeat wp_step.
    all: by rewrite lookup_insert_eq.
  - intros Hf. apply (alone_run _ (λ _ w',
      files (env w') !! tokenPath (this w)
      = Some (JSON_stringify newTokens))).
    revert Hph Hlk Hfl Hf. destruct_world w. wsimp. intros -> Hlk -> Hf.
    destruct (truthy (newTokens !! "refresh_token")) eqn:Hr.
    all: destruct en as [|rnd en]; repeat wp_step.
    all: rewrite lookup_insert_eq; unfold spread; cbn [own_props].
    all: by rewrite ?(right_id_L ∅ (∪)).
  - intros cur Hf Hr. apply (alone_run _ (λ _ w',
      files (env w') !! tokenPath (this w)
      = Some (JSON_stringify (spread cur newTokens)))).
    revert Hph Hlk Hfl Hf. destruct_world w. wsimp. intros -> Hlk -> Hf.
    destruct en as [|rnd en]; repeat wp_step.
    all: by rewrite lookup_insert_eq.
Qed.

Lemma cleanup_each_cons {L} tempPath rest :
  cleanup_each (L:=L) (tempPath :: rest)
  = (cleanup_one tempPath;; cleanup_each rest).
Proof. done. Qed.

Lemma same_manager_refl w : same_manager w w.
Proof. done. Qed.

Lemma same_manager_trans w1 w2 w3 :
  same_manager w1 w2 → same_manager w2 w3 → same_manager w1 w3.
Proof. unfold same_manager. by intros <- <-. Qed.

Lemma cleanup_one_any (tempPath : string) (w : World) :
  let r := run (cleanup_one tempPath) w in
  r.1 = Ok tt ∧ same_manager w r.2.
Proof.
  intros r. subst r.
  apply (alone_run _ (λ r w', r = Ok tt ∧ same_manager w w')).
  destruct_world w. unfold cleanup_one. wp_explore; eauto.
  all: by split.
Qed.

Lemma cleanup_one_no_fault (tempPath : string) (w : World) :
  faults (env w) = [] →
  let r := run (cleanup_one tempPath) w in
  faults (env r.2) = []
  ∧ files (env r.2) = delete tempPath (files (env w))
  ∧ tempFiles (tempFileManager (this r.2))
    = JsMap.delete tempPath (tempFiles (tempFileManager (this w))).
Proof.
  intros Hfl r. subst r.
  apply (alone_run _ (λ _ w', faults (env w') = []
    ∧ files (env w') = delete tempPath (files (env w))
    ∧ tempFiles (tempFileManager (this w'))
      = JsMap.delete tempPath (tempFiles (tempFileManager (this w))))).
  revert Hfl. destruct_world w. wsimp. intros ->. unfold cleanup_one.
  wp_explore; eauto.
  all: split_and!; try done.
  all: by rewrite delete_id.
Qed.

Lemma cleanup_each_any (tempPaths : list string) :
  ∀ w, let r := run (cleanup_each tempPaths) w in
       r.1 = Ok tt ∧ same_manager w r.2.
Proof.
  induction tempPaths as [|p ps IH]; intros w; [done|]. cbv zeta.
  rewrite cleanup_each_cons, run_bind.
  destruct (cleanup_one_any p w) as [H1 H2].
  destruct (run (cleanup_one p) w) as [[[]|e] w1]; [|done].
  destruct (IH w1) as [H3 H4]. split; [done|].
  by eapply same_manager_trans.
Qed.

Lemma cleanup_each_no_fault (tempPaths : list string) :
  ∀ w, faults (env w) = [] →
       let r := run (cleanup_each tempPaths) w in
       faults (env r.2) = []
       ∧ files (env r.2) = foldl (λ fs p, delete p fs) (files (env w)) tempPaths
       ∧ tempFiles (tempFileManager (this r.2))
         = foldl (λ m p, JsMap.delete p m)
             (tempFiles (tempFileManager (this w))) tempPaths.
Proof.
  induction tempPaths as [|p ps IH]; intros w Hfl; [done|]. cbv zeta.
  rewrite cleanup_each_cons, run_bind.
  destruct (cleanup_one_any p w) as [H1 _].
  destruct (cleanup_one_no_fault p w Hfl) as (H2 & H3 & H4).
  destruct (run (cleanup_one p) w) as [[[]|e] w1]; [|done].
  cbn [fst snd] in *.
  destruct (IH w1 H2) as (H5 & H6 & H7). cbn [foldl].
  by rewrite H5, H6, H7, H3, H4.
Qed.

Lemma keys_delete {V} (k p : string) (m : list (string * V)) :
  k ∈ JsMap.keys (JsMap.delete p m) ↔ k ≠ p ∧ k ∈ JsMap.keys m.
Proof.
  clear dirname. unfold JsMap.keys, JsMap.delete.
  induction m as [|[k' v] m IH]; cbn.
  - split; [by intros ?%not_elem_of_nil|by intros [_ ?%not_elem_of_nil]].
  - destruct (decide (k' = p)) as [->|Hne].
    + rewrite bool_decide_eq_true_2 by done. cbn. rewrite IH.
      rewrite elem_of_cons. tauto.
    + rewrite bool_decide_eq_false_2 by done. cbn.
      rewrite !elem_of_cons, IH. intuition congruence.
Qed.

Lemma delete_all_keys {V} (ps : list string) :
  ∀ m : list (string * V),
  (∀ k, k ∈ JsMap.keys m → k ∈ ps) →
  foldl (λ m p, JsMap.delete p m) m ps = [].
Proof.
  induction ps as [|p ps IH]; intros m Hm; cbn.
  - destruct m as [|[k v] m]; [done|].
    specialize (Hm k). cbn in Hm. by apply not_elem_of_nil in Hm; [|left].
  - apply IH. intros k [Hne Hk]%keys_delete.
    apply Hm in Hk. by apply elem_of_cons in Hk as [?|?].
Qed.

Lemma lookup_delete_all (ps : list string) (k : string) :
  ∀ fs : gmap string text,
  foldl (λ fs p, delete p fs) fs ps !! k
  = if decide (k ∈ ps) then None else fs !! k.
Proof.
  induction ps as [|p ps IH]; intros fs; cbn.
  - by rewrite decide_False by apply not_elem_of_nil.
  - rewrite IH. destruct (decide (k ∈ ps)) as [Hin|Hni].
    + by rewrite decide_True by by right.
    + destruct (decide (k = p)) as [->|Hne].
      * rewrite decide_True by by left. apply lookup_delete_eq.
      * rewrite decide_False by by intros [?|?]%elem_of_cons.
        by rewrite lookup_delete_ne.
Qed.

Lemma cleanupAllTemporaryFiles_facts (w : World) :
  let tracked := JsMap.keys (tempFiles (tempFileManager (this w))) in
  let r := run cleanupAllTemporaryFiles w in
  r.1 = Ok tt
  ∧ same_manager w r.2
  ∧ (faults (env w) = [] →
     tempFiles (tempFileManager (this r.2)) = []
     ∧ ∀ p, files (env r.2) !! p
            = if decide (p ∈ tracked) then None else files (env w) !! p).
Proof.
  intros tracked r. subst tracked r. unfold cleanupAllTemporaryFiles, gets.
  rewrite run_bind, run_sync, run_ret. cbn [fst snd].
  destruct (cleanup_each_any
              (JsMap.keys (tempFiles (tempFileManager (this w)))) w)
    as [H1 H2].
  split_and!; [done|done|]. intros Hfl.
  destruct (cleanup_each_no_fault
              (JsMap.keys (tempFiles (tempFileManager (this w)))) w Hfl)
    as (_ & H3 & H4).
  split.
  - rewrite H4. by apply delete_all_keys.
  - intros p. rewrite H3. apply lookup_delete_all.
Qed.

(** X5.  [cleanupAllTemporaryFiles] never raises and changes nothing of the
    manager but the tracked temp files.  When no call fails, every
    tracked path is removed from disk and released, and no other file is
    touched. *)
Theorem cleanup_removes_tracked_files (w : World) :
  let tracked := JsMap.keys (tempFiles (tempFileManager (this w))) in
  let r := run cleanupAllTemporaryFiles w in
  r.1 = Ok tt
  ∧ same_manager w r.2
  ∧ (faults (env w) = [] →
     tempFiles (tempFileManager (this r.2)) = []
     ∧ ∀ p, files (env r.2) !! p
            = if decide (p ∈ tracked) then None else files (env w) !! p).
Proof.
  intros tracked r. subst tracked r. unfold cleanupAllTemporaryFiles, gets.
  rewrite run_bind, run_sync, run_ret. cbn [fst snd].
  destruct (cleanup_each_any
              (JsMap.keys (tempFiles (tempFileManager (this w)))) w)
    as [H1 H2].
  split_and!; [done|done|]. intros Hfl.
  destruct (cleanup_each_no_fault
              (JsMap.keys (tempFiles (tempFileManager (this w)))) w Hfl)
    as (_ & H3 & H4).
  split.
  - rewrite H4. by apply delete_all_keys.
  - intros p. rewrite H3. apply lookup_delete_all.
Qed.

Lemma run_release_resources_cons (resource : string) (rest : list string) w :
  run (release_resources (resource :: rest)) w
  = match run (release_one resource) w with
    | (Ok _, w') => run (release_resources rest) w'
    | (Err e, w') => (Err e, w')
    end.
Proof.
  unfold release_one. cbn [release_resources].
  unfold isTemporaryFile, gets. rewrite !run_bind, !run_sync, !run_ret.
  cbn [fst snd]. rewrite run_bind. done.
Qed.

Lemma release_one_facts (resource : string) (w : World) :
  let r := run (release_one resource) w in
  r.1 = Ok tt
  ∧ same_manager w r.2
  ∧ (faults (env w) = [] → faults (env r.2) = [])
  ∧ tempFiles (tempFileManager (this r.2))
    = JsMap.delete resource (tempFiles (tempFileManager (this w)))
  ∧ (∀ p, p ≠ resource → files (env r.2) !! p = files (env w) !! p).
Proof.
  intros r. subst r.
  apply (alone_run _ (λ r w', r = Ok tt
    ∧ same_manager w w'
    ∧ (faults (env w) = [] → faults (env w') = [])
    ∧ tempFiles (tempFileManager (this w'))
      = JsMap.delete resource (tempFiles (tempFileManager (this w)))
    ∧ (∀ p, p ≠ resource → files (env w') !! p = files (env w) !! p))).
  destruct_world w. unfold release_one. wsimp.
  destruct (JsMap.has resource tf) eqn:Htf; wp_explore.
  all: split_and!; try done.
  all: try (by symmetry; apply delete_absent).
  all: intros p Hp; by rewrite lookup_delete_ne.
Qed.

Lemma has_delete_ne {V} (k p : string) (m : list (string * V)) :
  JsMap.has k (JsMap.delete p m) = true → JsMap.has k m = true.
Proof.
  unfold JsMap.has, JsMap.get, JsMap.delete.
  induction m as [|[k' v] m IH]; cbn; [done|].
  destruct (bool_decide (k' = p)) eqn:Ep; cbn.
  - intros H. destruct (bool_decide (k' = k)); [|by apply IH].
    apply bool_decide_eq_true_2. by eexists.
  - destruct (bool_decide (k' = k)); [done|apply IH].
Qed.

Lemma has_delete_all {V} (ps : list string) (k : string) :
  ∀ m : list (string * V),
  (k ∈ ps → JsMap.has k (foldl (λ m p, JsMap.delete p m) m ps) = false)
  ∧ (JsMap.has k (foldl (λ m p, JsMap.delete p m) m ps) = true →
     JsMap.has k m = true).
Proof.
  induction ps as [|p ps IH]; intros m; cbn.
  - split; [by intros ?%not_elem_of_nil|done].
  - destruct (IH (JsMap.delete p m)) as [IH1 IH2]. split.
    + intros [->|Hin]%elem_of_cons; [|by apply IH1].
      apply not_true_iff_false. intros E.
      apply IH2 in E. by rewrite has_delete_eq in E.
    + intros H. by eapply has_delete_ne, IH2.
Qed.

Lemma release_resources_facts (rs : list string) :
  ∀ w, let r := run (release_resources rs) w in
       r.1 = Ok tt
       ∧ same_manager w r.2
       ∧ (faults (env w) = [] → faults (env r.2) = [])
       ∧ tempFiles (tempFileManager (this r.2))
         = foldl (λ m p, JsMap.delete p m)
             (tempFiles (tempFileManager (this w))) rs
       ∧ (∀ p, p ∉ rs → files (env r.2) !! p = files (env w) !! p).
Proof.
  induction rs as [|res rs IH]; intros w; [done|]. cbv zeta.
  rewrite run_release_resources_cons.
  destruct (release_one_facts res w) as (H1 & H2 & H3 & H4 & H5).
  destruct (run (release_one res) w) as [[[]|e] w1]; [|done].
  cbn [fst snd] in *.
  destruct (IH w1) as (H6 & H7 & H8 & H9 & H10). split_and!.
  - done.
  - by eapply same_manager_trans.
  - auto.
  - cbn [foldl]. by rewrite H9, H4.
  - intros p Hp. apply not_elem_of_cons in Hp as [Hne Hp].
    by rewrite H10, H5.
Qed.

Lemma same_manager_fields w w' :
  same_manager w w' →
  oauth2Client (this w') = oauth2Client (this w)
  ∧ shutdownPhase (this w') = shutdownPhase (this w)
  ∧ pendingOperations (this w') = pendingOperations (this w)
  ∧ heap (this w') = heap (this w)
  ∧ tokenListener (this w') = tokenListener (this w).
Proof.
  unfold same_manager. destruct w as [e m], w' as [e' m'].
  destruct m, m'. cbn. by intros [= -> -> -> -> -> -> ->].
Qed.

Lemma same_manager_heap w w' :
  same_manager w w' → heap (this w') = heap (this w).
Proof. intros H. by apply same_manager_fields in H as (_ & _ & _ & ? & _). Qed.

Lemma release_each_facts (entries : list (string * nat)) :
  ∀ w, let r := run (release_each entries) w in
       r.1 = Ok tt
       ∧ same_manager w r.2
       ∧ (faults (env w) = [] → faults (env r.2) = [])
       ∧ tempFiles (tempFileManager (this r.2))
         = foldl (λ m p, JsMap.delete p m)
             (tempFiles (tempFileManager (this w))) (resources_of w entries)
       ∧ (∀ p, p ∉ resources_of w entries →
            files (env r.2) !! p = files (env w) !! p).
Proof.
  induction entries as [|[name op] entries IH]; intros w; [done|]. cbv zeta.
  cbn [release_each]. unfold gets. rewrite run_bind, run_sync, run_ret.
  cbn [fst snd]. rewrite run_bind.
  set (rs := match heap (this w) !! op with
             | Some o => resources o
             | None => []
             end).
  destruct (release_resources_facts rs w) as (H1 & H2 & H3 & H4 & H5).
  destruct (run (release_resources rs) w) as [[[]|e] w1]; [|done].
  cbn [fst snd] in *.
  destruct (IH w1) as (H6 & H7 & H8 & H9 & H10).
  assert (resources_of w ((name, op) :: entries)
          = rs ++ resources_of w1 entries) as ->.
  { unfold resources_of. cbn. fold rs. f_equal.
    by rewrite (same_manager_heap _ _ H2). }
  split_and!.
  - done.
  - by eapply same_manager_trans.
  - auto.
  - by rewrite H9, H4, foldl_app.
  - intros p Hp. apply not_elem_of_app in Hp as [Hp1 Hp2].
    by rewrite H10, H5.
Qed.

Lemma waitForPendingOperations_no_fault (timeout : Z) (w : World) :
  faults (env w) = [] →
  faults (env (run (waitForPendingOperations timeout) w).2) = [].
Proof.
  intros Hfl. unfold waitForPendingOperations, gets.
  rewrite run_bind, run_sync, run_ret. cbn [fst snd].
  destruct (pendingOperations (this w)) as [|entry entries] eqn:Hpd.
  { by rewrite decide_True, run_ret by done. }
  rewrite decide_False by done.
  unfold await. rewrite run_bind, run_await. cbn [exec fst snd].
  rewrite run_ret, run_bind, run_sync, run_ret. cbn [fst snd].
  rewrite Hpd, decide_True by done.
  by apply release_each_facts.
Qed.

Lemma waitForPendingOperations_facts (timeout : Z) (w : World) :
  let rs := resources_of w (pendingOperations (this w)) in
  let r := run (waitForPendingOperations timeout) w in
  r.1 = Ok tt
  ∧ same_manager w r.2
  ∧ (pendingOperations (this w) = [] → r.2 = w)
  ∧ (∀ p, p ∈ rs →
       JsMap.has p (tempFiles (tempFileManager (this r.2))) = false)
  ∧ (∀ p, JsMap.has p (tempFiles (tempFileManager (this r.2))) = true →
       JsMap.has p (tempFiles (tempFileManager (this w))) = true)
  ∧ (∀ p, p ∉ rs → files (env r.2) !! p = files (env w) !! p).
Proof.
  intros rs r. subst rs r. unfold waitForPendingOperations, gets.
  rewrite run_bind, run_sync, run_ret. cbn [fst snd].
  destruct (pendingOperations (this w)) as [|entry entries] eqn:Hpd.
  { rewrite decide_True, run_ret by done. cbn [fst snd].
    split_and!; try done. by intros p ?%not_elem_of_nil. }
  rewrite decide_False by done.
  unfold await. rewrite run_bind, run_await. cbn [exec fst snd].
  rewrite run_ret, run_bind, run_sync, run_ret. cbn [fst snd].
  rewrite Hpd, decide_True by done.
  destruct (release_each_facts (entry :: entries) w)
    as (H1 & H2 & _ & H4 & H5).
  split_and!; [done|done|done|..].
  - intros p Hp. rewrite H4. by apply has_delete_all.
  - intros p Hp. rewrite H4 in Hp. by eapply has_delete_all.
  - done.
Qed.

(** X7.  [waitForPendingOperations] never raises and leaves the registry as it
    is: no entry is removed and no status is changed.  With an empty
    registry it returns at once.  When entries are left after the wait,
    none of their resources is tracked as a temp file any more, nothing
    new is tracked, and no file but those resources is touched. *)
Theorem waitForPendingOperations_releases (timeout : Z) (w : World) :
  let rs := resources_of w (pendingOperations (this w)) in
  let r := run (waitForPendingOperations timeout) w in
  r.1 = Ok tt
  ∧ same_manager w r.2
  ∧ (pendingOperations (this w) = [] → r.2 = w)
  ∧ (∀ p, p ∈ rs →
       JsMap.has p (tempFiles (tempFileManager (this r.2))) = false)
  ∧ (∀ p, JsMap.has p (tempFiles (tempFileManager (this r.2))) = true →
       JsMap.has p (tempFiles (tempFileManager (this w))) = true)
  ∧ (∀ p, p ∉ rs → files (env r.2) !! p = files (env w) !! p).
Proof.
  intros rs r. subst rs r. unfold waitForPendingOperations, gets.
  rewrite run_bind, run_sync, run_ret. cbn [fst snd].
  destruct (pendingOperations (this w)) as [|entry entries] eqn:Hpd.
  { rewrite decide_True, run_ret by done. cbn [fst snd].
    split_and!; try done. by intros p ?%not_elem_of_nil. }
  rewrite decide_False by done.
  unfold await. rewrite run_bind, run_await. cbn [exec fst snd].
  rewrite run_ret, run_bind, run_sync, run_ret. cbn [fst snd].
  rewrite Hpd, decide_True by done.
  destruct (release_each_facts (entry :: entries) w)
    as (H1 & H2 & _ & H4 & H5).
  split_and!; [done|done|done|..].
  - intros p Hp. rewrite H4. by apply has_delete_all.
  - intros p Hp. rewrite H4 in Hp. by eapply has_delete_all.
  - done.
Qed.

(** X6.  [markAsShuttingDown] never raises.  Outside phase [RUNNING] it does
    nothing.  From [RUNNING] it ends in [COMPLETE] with the listener
    removed, whichever calls fail; the registry and the credentials are
    left as they are, and when no call fails no temp file is tracked at
    the end. *)
Theorem markAsShuttingDown_completes (w : World) :
  let r := run markAsShuttingDown w in
  r.1 = Ok tt
  ∧ (shutdownPhase (this w) ≠ RUNNING → r.2 = w)
  ∧ (shutdownPhase (this w) = RUNNING →
     shutdownPhase (this r.2) = COMPLETE
     ∧ tokenListener (this r.2) = false
     ∧ pendingOperations (this r.2) = pendingOperations (this w)
     ∧ credentials (oauth2Client (this r.2))
       = credentials (oauth2Client (this w))
     ∧ (faults (env w) = [] →
        tempFiles (tempFileManager (this r.2)) = [])).
Proof.
  intros r. subst r. unfold markAsShuttingDown, get_phase, gets.
  rewrite run_bind, run_sync, run_ret. cbn [fst snd].
  destruct (decide (shutdownPhase (this w) ≠ RUNNING)) as [Hph|Hph].
  { by rewrite run_ret. }
  apply dec_stable in Hph.
  unfold set_phase, modify. rewrite run_bind, run_sync, run_ret.
  cbn [fst snd]. rewrite run_bind.
  set (w1 := with_this (set_shutdownPhase PREPARING) w).
  assert (∃ w2, run removeTokenListener w1 = (Ok tt, w2)
    ∧ shutdownPhase (this w2) = PREPARING
    ∧ tokenListener (this w2) = false
    ∧ pendingOperations (this w2) = pendingOperations (this w)
    ∧ credentials (oauth2Client (this w2))
      = credentials (oauth2Client (this w))
    ∧ env w2 = env w) as (w2 & -> & P1 & P2 & P3 & P4 & P5).
  { subst w1. destruct_world w. destruct tl; by eexists. }
  rewrite run_bind.
  destruct (waitForPendingOperations_facts 3000 w2)
    as (W1 & W2 & _ & _ & _ & _).
  pose proof (waitForPendingOperations_no_fault 3000 w2) as W3.
  destruct (run (waitForPendingOperations 3000) w2) as [[[]|e] w3];
    [|done].
  cbn [fst snd] in W2, W3.
  rewrite run_bind, run_sync, run_ret. cbn [fst snd].
  rewrite run_bind.
  set (w4 := with_this (set_shutdownPhase FINALIZING) w3).
  destruct (cleanupAllTemporaryFiles_facts w4) as (C1 & C2 & C3).
  destruct (run cleanupAllTemporaryFiles w4) as [[[]|e] w5]; [|done].
  cbn [fst snd] in C2, C3. rewrite run_sync, run_ret. cbn [fst snd].
  split_and!; [done|done|]. intros _.
  apply same_manager_fields in W2 as (F1 & F2 & F3 & F4 & F5).
  apply same_manager_fields in C2 as (G1 & G2 & G3 & G4 & G5).
  subst w4. destruct w3 as [e3 m3], w5 as [e5 m5]. cbn in *.
  split_and!.
  - done.
  - congruence.
  - congruence.
  - congruence.
  - intros Hfl. apply C3, W3. by rewrite P5.
Qed.

(** X20.  A public method that is rejected during shutdown is not cancelled:
    [loadSavedTokens] has started the load before [registerOperation]
    looks at the phase.  The caller's promise is rejected, and the load
    runs to its end and installs the record of the token file as the
    credentials in memory. *)
Theorem rejected_load_still_runs (w : World) (tokens : json) :
  shutdownPhase (this w) ≠ RUNNING →
  files (env w) !! tokenPath (this w) = Some (Json tokens) →
  invalid_format tokens = false →
  faults (env w) = [] →
  let s := sys_run [Invoke (void (loadSavedTokens dirname));
                    Resume 1; Resume 1; Resume 1]
             {| world := w; tasks := [] |} in
  tasks s = [Throw (shutting_down "load-tokens" (shutdownPhase (this w)));
             Ret tt]
  ∧ credentials (oauth2Client (this (world s))) = own_props tokens
  ∧ files (env (world s)) = files (env w).
Proof.
  intros Hph Hf Hv Hfl s. subst s.
  revert Hph Hf Hfl. destruct_world w. wsimp. intros Hph Hf ->.
  cbn [sys_run foldl].
  match goal with
  | |- context [sys_step (Invoke ?p) ?s0] =>
      let s1 := fresh "s1" in
      let E := fresh "E" in
      evar (s1 : Sys);
      assert (sys_step (Invoke p) s0 = s1) as E;
      [ unfold loadSavedTokens, loadSavedTokensInternal, registerOperation;
        cbn; destruct (decide (ph ≠ RUNNING)) as [_|?]; [|done]; cbn;
        subst s1; reflexivity
      | rewrite E; clear E; subst s1 ]
  end.
  do 4 (wsimp; rewrite ?Hf, ?Hv; cbn). done.
Qed.

(** X21.  The listener of "tokens": during shutdown it does nothing; while the
    manager is running it returns at once and leaves the refresh in
    flight, registered under an id made of the time of the call. *)
Theorem tokenListener_starts_a_refresh (w : World) (newTokens : object) :
  let s := settle (tokenListener_call dirname newTokens) tt w in
  s.1.1.1 = Ret tt
  ∧ (shutdownPhase (this w) ≠ RUNNING → s.1.2 = w ∧ s.2 = [])
  ∧ (shutdownPhase (this w) = RUNNING →
     JsMap.get ("token-refresh-" +:+ pretty (clock (env w)))
       (pendingOperations (this s.1.2))
     = Some (length (heap (this w)))
     ∧ ∃ task, s.2 = [task] ∧ in_flight task = true).
Proof.
  intros s. subst s. destruct_world w.
  unfold tokenListener_call, refreshTokensInternal, registerOperation,
    createTempFile, Math_random.
  destruct ph, en as [|rnd en]; cbn; split_and!; try done.
  all: intros _; split; [apply JsMapFacts.get_set_eq|by eexists].
Qed.

(** X22.  Loads alone, however many and however interleaved, change neither
    the files nor the locks nor the phase when no call fails and the
    token file is absent or holds a well-formed record. *)
Theorem loads_change_no_file (tokens : object) (w : World)
  (schedule : list step) :
  faults (env w) = [] →
  match files (env w) !! tokenPath (this w) with
  | Some t => valid_text t = true
  | None => True
  end →
  saves schedule = 0 →
  core (world (sys_run (act dirname tokens <$> schedule)
                 {| world := w; tasks := [] |}))
  = core w.
Proof.
  intros Hfl Hv Hn.
  set (path := tokenPath (this w)) in *.
  set (pre := files (env w) !! path) in *.
  set (tr0 := trace (env w)).
  assert (∀ s : Sys,
    good tokens path pre tr0 (world s)
    ∧ Forall (quiet tokens path pre tr0) (tasks s)
    ∧ core (world s) = core w →
    core (world (sys_run (act dirname tokens <$> schedule) s)) = core w)
    as Hrun.
  { induction schedule as [|st schedule IH]; intros s (Hg & Hts & Hc).
    { done. }
    assert (st ≠ Save ∧ saves schedule = 0) as [Hst Hn'].
    { unfold saves in *. rewrite filter_cons in Hn.
      case_decide; [done|]. done. }
    cbn. apply IH; [done|]. destruct s as [w1 ts]. cbn [world tasks] in *.
    destruct st as [| |i]; [done|..].
    - pose proof (load_is_quiet tokens path pre tr0 w1 Hv Hg) as H.
      apply settle_quiet in H. cbn [sys_step act world tasks].
      destruct (settle _ tt w1) as [[[p' l'] w2] ps]. cbn [fst snd] in H.
      destruct H as ([Hg2 Hc2] & Hp' & Hps). cbn [world tasks].
      split_and!; [done| |congruence].
      apply Forall_app. split; [done|]. by constructor.
    - cbn [sys_step act world tasks].
      destruct (ts !! i) as [[| | | |X c k|]|] eqn:Ei; try done.
      pose proof (Forall_lookup_1 _ _ _ _ Hts Ei w1 w1 Hg) as H.
      apply settle_quiet in H. destruct (exec c w1) as [r w1'].
      cbn [fst snd] in H.
      destruct (settle _ tt w1') as [[[p' l'] w2] ps]. cbn [fst snd] in H.
      destruct H as ([Hg2 Hc2] & Hp' & Hps). cbn [world tasks].
      split_and!; [done| |congruence].
      apply Forall_app. split; [|done]. by apply Forall_insert. }
  apply Hrun. cbn [world tasks]. split_and!; [|done|done].
  split_and!; [done|done|by left|by exists []].
Qed.

(** X15.  [refreshTokensInternal] with the manager running, the lock free and
    no failing call, whatever the token file holds: it does not touch the
    credentials in memory, the lock is free again, the temp file is
    removed and released, and no file but the token file and the temp
    file is changed. *)
Theorem refresh_leaves_nothing_behind (w : World) (newTokens : object) :
  shutdownPhase (this w) = RUNNING →
  JsMap.has (tokenPath (this w)) (locks (fileLock (this w))) = false →
  faults (env w) = [] →
  let r := run (frame None (refreshTokensInternal dirname newTokens)) w in
  credentials (oauth2Client (this r.2)) = credentials (oauth2Client (this w))
  ∧ locks (fileLock (this r.2)) = locks (fileLock (this w))
  ∧ ∃ tempPath,
      tempPath ≠ tokenPath (this w)
      ∧ files (env r.2) !! tempPath = None
      ∧ tempFiles (tempFileManager (this r.2))
        = JsMap.delete tempPath (tempFiles (tempFileManager (this w)))
      ∧ ∀ p, p ≠ tokenPath (this w) → p ≠ tempPath →
             files (env r.2) !! p = files (env w) !! p.
Proof.
  intros Hph Hlk Hfl r. subst r.
  apply (alone_run _ (λ _ w',
    credentials (oauth2Client (this w')) = credentials (oauth2Client (this w))
    ∧ locks (fileLock (this w')) = locks (fileLock (this w))
    ∧ ∃ tempPath,
        tempPath ≠ tokenPath (this w)
        ∧ files (env w') !! tempPath = None
        ∧ tempFiles (tempFileManager (this w'))
          = JsMap.delete tempPath (tempFiles (tempFileManager (this w)))
        ∧ ∀ p, p ≠ tokenPath (this w) → p ≠ tempPath →
               files (env w') !! p = files (env w) !! p)).
  revert Hph Hlk Hfl. destruct_world w. wsimp. intros -> Hlk ->.
  destruct en as [|rnd en]; wp_explore.
  all: split_and!; try done.
  all: try (rewrite delete_set_eq; by apply delete_absent).
  all: match goal with |- context [JsMap.set ?p _ _] => exists p end.
  all: split_and!; [apply temp_path_ne| | apply delete_set_eq|].
  all: try (rewrite lookup_insert_ne by (apply not_eq_sym, temp_path_ne);
            apply lookup_delete_eq).
  all: intros p Hp1 Hp2.
  all: by rewrite lookup_insert_ne, lookup_delete_ne, !lookup_insert_ne.
Qed.

End Properties.

(** * Instances *)

(** A save while the manager is preparing to shut down. *)
Lemma saveTokens_rejected_during_shutdown_witness :
  let w := manager None [] [] PREPARING ∅ in
  shutdownPhase (this w) ≠ RUNNING
  ∧ run (saveTokens dirname_posix record_A1) w
    = (Err (shutting_down "save-tokens" PREPARING), w).
Proof.
  intros w. split; [discriminate|].
  apply (saveTokens_rejected_during_shutdown dirname_posix record_A1 w).
  discriminate.
Defined.

(** An access token that expired at 500, read at 1000, with no refresh
    token. *)
Lemma expired_without_refresh_token_is_valid_witness :
  let w := manager None [] [] RUNNING
             (credential [("access_token", JStr "A");
                          ("expiry_date", JNum 500)]) in
  let c := credentials (oauth2Client (this w)) in
  truthy (c !! "access_token") = true
  ∧ c !! "expiry_date" = Some (JNum 500)
  ∧ (500 < clock (env w))%Z
  ∧ truthy (c !! "refresh_token") = false
  ∧ run refreshTokensIfNeededInternal w = (Ok true, w).
Proof.
  intros w c. split_and!; [reflexivity|reflexivity|reflexivity|reflexivity|].
  apply (expired_without_refresh_token_is_valid w 500);
    reflexivity.
Defined.

(** The provider answers the refresh with [invalid_grant]. *)
Lemma refresh_error_resolves_to_false_witness :
  let w := manager None [] [Err (GaxiosError (Some "invalid_grant"))] RUNNING
             (credential [("access_token", JStr "A");
                          ("refresh_token", JStr "R");
                          ("expiry_date", JNum 500)]) in
  let c := credentials (oauth2Client (this w)) in
  isExpired c (clock (env w)) = true
  ∧ truthy (c !! "refresh_token") = true
  ∧ (run refreshTokensIfNeededInternal w).1 = Ok false.
Proof.
  intros w c. split_and!; [reflexivity|reflexivity|].
  apply (refresh_error_resolves_to_false w
           (GaxiosError (Some "invalid_grant")) []);
    reflexivity.
Defined.




(** New tokens that hold a refresh token alone. *)
Lemma refresh_verification_misses_access_token_witness :
  let newTokens := credential [("refresh_token", JStr "R")] in
  let w := manager None [] [] RUNNING ∅ in
  let r := run (frame None (refreshTokensInternal dirname_posix newTokens))
             w in
  let s := run (frame None (saveTokensInternal dirname_posix newTokens)) w in
  truthy (newTokens !! "access_token") = false
  ∧ r.1 = Ok tt
  ∧ files (env r.2) !! token_json = Some (JSON_stringify newTokens)
  ∧ s.1 = Err (Error "Token verification failed, invalid token format")
  ∧ files (env s.2) !! token_json = None.
Proof.
  intros newTokens w r s. split; [reflexivity|].
  destruct (refresh_verification_misses_access_token dirname_posix w
              newTokens) as [[H1 H2] [H3 H4]];
    [reflexivity|reflexivity|reflexivity|reflexivity|reflexivity|].
  exact (conj H1 (conj H2 (conj H3 H4))).
Defined.

(** [emergencyShutdown] at phase [COMPLETE], with no token file: the file
    is written. *)
Lemma emergencyShutdown_after_complete_writes_witness :
  let w := manager None [] [] COMPLETE record_A1 in
  let r := run (emergencyShutdown dirname_posix) w in
  shutdownPhase (this w) = COMPLETE
  ∧ files (env w) !! token_json = None
  ∧ files (env r.2) !! token_json = Some (JSON_stringify record_A1).
Proof.
  intros w r. split; [reflexivity|]. split; [reflexivity|].
  destruct (emergencyShutdown_after_complete_writes dirname_posix w)
    as (_ & _ & H & _); [reflexivity|reflexivity|reflexivity|].
  exact H.
Defined.

(** A token file that is not JSON. *)
Lemma load_is_total_and_heals_witness :
  let w := manager (Some (Garbage "not json")) [] [] RUNNING ∅ in
  let r := run (loadSavedTokensInternal dirname_posix) w in
  files (env w) !! token_json = Some (Garbage "not json")
  ∧ r.1 = Ok false
  ∧ files (env r.2) !! token_json = None.
Proof.
  intros w r. split; [reflexivity|].
  destruct (load_is_total_and_heals dirname_posix w)
    as (_ & _ & _ & _ & H & _).
  destruct (H "not json") as [H1 H2]; [reflexivity|].
  split; [exact H1|]. apply H2. reflexivity.
Defined.

(** An operation that returns [true] at once, registered as
    ["save-tokens"]. *)
Lemma registerOperation_tracks_by_id_witness :
  let w := manager None [] [] RUNNING ∅ in
  shutdownPhase (this w) = RUNNING
  ∧ (run (registerOperation "save-tokens" (Ret true) []) w).1 = Ok true
  ∧ JsMap.get "save-tokens"
      (pendingOperations (this (registered "save-tokens" [] w))) = Some 0.
Proof.
  intros w. split; [reflexivity|].
  destruct (registerOperation_tracks_by_id dirname_posix "save-tokens"
              (Ret true) [] record_A1 w) as (_ & H1 & H2 & _);
    [reflexivity|].
  split; [exact (f_equal fst H1)|exact H2].
Defined.

(** C9 as stated fails for two saves in flight: the registry holds one
    entry. *)
Lemma two_saves_share_one_entry :
  ¬ entry_per_invocation
      (sys_run [Invoke (saveTokens dirname_posix record_A1);
                Invoke (saveTokens dirname_posix record_A2)]
         {| world := manager None [] [] RUNNING ∅; tasks := [] |}).
Proof.
  unfold entry_per_invocation. vm_compute. lia.
Qed.



(** * Instances for the helpers and the other methods *)

(** [withLock] around an operation that returns at once. *)
Lemma withLock_runs_and_releases_witness :
  let w := manager None [] [] RUNNING ∅ in
  JsMap.has token_json (locks (fileLock (this w))) = false
  ∧ run (withLock token_json (Ret true)) w
    = (Ok true, unlock token_json (lock token_json w)).
Proof.
  intros w. split; [reflexivity|].
  apply (withLock_runs_and_releases token_json (Ret true) w). reflexivity.
Defined.

(** [withLock] on a lock that is held. *)
Lemma withLock_times_out_witness :
  let w := lock token_json (manager None [] [] RUNNING ∅) in
  JsMap.has token_json (locks (fileLock (this w))) = true
  ∧ run (withLock token_json (Ret true)) w
    = (Err (Error ("Failed to acquire lock for " +:+ token_json)),
       sleep 5000 w).
Proof.
  intros w. split; [reflexivity|].
  apply (withLock_times_out token_json (Ret true) w). reflexivity.
Defined.

(** One attempt at a rename that fails. *)
Lemma withRetry_attempts_witness :
  let w := manager None [Some "EPERM"] [] RUNNING ∅ in
  let operation : Prog unit unit := await (fs_rename scratch_tmp token_json) in
  (run operation w).1 = Err (ErrnoException "EPERM")
  ∧ run (withRetry operation 1) w = run operation w.
Proof.
  intros w operation. split; [reflexivity|].
  destruct (withRetry_attempts operation 0 w) as (_ & _ & H & _).
  apply (H (ErrnoException "EPERM")). reflexivity.
Defined.

(** One tracked temp file that exists. *)
Lemma cleanup_removes_tracked_files_witness :
  let w := tracking scratch_tmp "save-tokens-1"
             (idle token_json {[ scratch_tmp := Garbage "x" ]} [] [] RUNNING
                ∅ 1000) in
  let r := run cleanupAllTemporaryFiles w in
  faults (env w) = []
  ∧ tempFiles (tempFileManager (this r.2)) = []
  ∧ files (env r.2) !! scratch_tmp = None.
Proof.
  intros w r. split; [reflexivity|].
  destruct (cleanup_removes_tracked_files w) as (_ & _ & H).
  destruct (H eq_refl) as [H1 H2]. split; [exact H1|].
  etrans; [apply (H2 scratch_tmp)|reflexivity].
Defined.

(** A shutdown of an idle, running manager. *)
Lemma markAsShuttingDown_completes_witness :
  let w := manager None [] [] RUNNING ∅ in
  shutdownPhase (this w) = RUNNING
  ∧ shutdownPhase (this (run markAsShuttingDown w).2) = COMPLETE.
Proof.
  intros w. split; [reflexivity|].
  destruct (markAsShuttingDown_completes w) as (_ & _ & H).
  apply H. reflexivity.
Defined.

(** An operation that is left in the registry with a tracked resource. *)
Lemma waitForPendingOperations_releases_witness :
  let w := stuck "save-tokens" scratch_tmp
             (tracking scratch_tmp "save-tokens-1"
                (manager None [] [] PREPARING ∅)) in
  let r := run (waitForPendingOperations 3000) w in
  scratch_tmp ∈ resources_of w (pendingOperations (this w))
  ∧ JsMap.has scratch_tmp (tempFiles (tempFileManager (this r.2))) = false.
Proof.
  intros w r.
  assert (scratch_tmp ∈ resources_of w (pendingOperations (this w))) as Hin
    by (vm_compute; constructor).
  split; [exact Hin|].
  destruct (waitForPendingOperations_releases 3000 w) as (_ & _ & _ & H & _).
  apply H. exact Hin.
Defined.

(** Clearing a token file that exists. *)
Lemma clearTokens_is_best_effort_witness :
  let w := manager (Some (Json (JObj record_A1))) [] [] RUNNING record_A1 in
  let r := run clearTokensInternal w in
  faults (env w) = []
  ∧ files (env r.2) !! token_json = None.
Proof.
  intros w r. split; [reflexivity|].
  destruct (clearTokens_is_best_effort w) as (_ & _ & _ & H & _).
  apply H. reflexivity.
Defined.

(** A load of the record [A1]. *)
Lemma load_installs_the_record_witness :
  let w := manager (Some (Json (JObj record_A1))) [] [] RUNNING ∅ in
  let r := run (loadSavedTokensInternal dirname_posix) w in
  files (env w) !! tokenPath (this w) = Some (Json (JObj record_A1))
  ∧ invalid_format (JObj record_A1) = false
  ∧ faults (env w) = []
  ∧ r.1 = Ok true
  ∧ credentials (oauth2Client (this r.2)) = record_A1.
Proof.
  intros w r. split_and!; [reflexivity|reflexivity|reflexivity|..];
    apply (load_installs_the_record dirname_posix w (JObj record_A1));
    reflexivity.
Defined.

(** An expired credential and a response with a new access token. *)
Lemma refresh_response_handling_witness :
  let w := manager None [] [Ok record_A2] RUNNING record_expired in
  let r := run refreshTokensIfNeededInternal w in
  isExpired record_expired (clock (env w)) = true
  ∧ truthy (record_expired !! "refresh_token") = true
  ∧ r.1 = Ok true
  ∧ credentials (oauth2Client (this r.2)) = record_A2.
Proof.
  intros w r. split; [reflexivity|]. split; [reflexivity|].
  destruct (refresh_response_handling w) as (_ & _ & H).
  apply (H record_A2 []); reflexivity.
Defined.

(** A synchronous save while the manager finalizes. *)
Lemma syncSaveTokens_writes_in_place_witness :
  let w := manager None [] [] FINALIZING ∅ in
  let r := run (syncSaveTokens dirname_posix record_A1) w in
  shutdownPhase (this w) ≠ COMPLETE
  ∧ files (env r.2) !! token_json = Some (JSON_stringify record_A1).
Proof.
  intros w r. split; [discriminate|].
  destruct (syncSaveTokens_writes_in_place dirname_posix w record_A1)
    as (_ & H & _); [discriminate|].
  apply H. reflexivity.
Defined.

(** An emergency shutdown of a running manager that holds [A1]. *)
Lemma emergencyShutdown_completes_witness :
  let w := manager None [] [] RUNNING record_A1 in
  let r := run (emergencyShutdown dirname_posix) w in
  truthy (record_A1 !! "access_token") = true
  ∧ shutdownPhase (this r.2) = COMPLETE
  ∧ files (env r.2) !! token_json = Some (JSON_stringify record_A1).
Proof.
  intros w r. split; [reflexivity|].
  destruct (emergencyShutdown_completes dirname_posix w)
    as (_ & H1 & _ & _ & _ & H2).
  split; [exact H1|]. apply H2; reflexivity.
Defined.


(** A save of [A2] over the record [A1], and the load that follows. *)
Lemma save_then_load_witness :
  let w := manager (Some (Json (JObj record_A1))) [] [] RUNNING ∅ in
  let s := run (frame None (saveTokensInternal dirname_posix record_A2)) w in
  let l := run (loadSavedTokensInternal dirname_posix) s.2 in
  shutdownPhase (this w) = RUNNING
  ∧ JsMap.has (tokenPath (this w)) (locks (fileLock (this w))) = false
  ∧ faults (env w) = []
  ∧ invalid_format (JObj record_A2) = false
  ∧ s.1 = Ok tt
  ∧ l.1 = Ok true
  ∧ credentials (oauth2Client (this l.2)) = record_A2.
Proof.
  intros w s l.
  split_and!; [reflexivity|reflexivity|reflexivity|reflexivity|..];
    apply (save_then_load dirname_posix w record_A2); reflexivity.
Defined.

(** A save of a record that holds a refresh token alone. *)
Lemma rejected_save_leaves_nothing_witness :
  let tokens := credential [("refresh_token", JStr "R")] in
  let w := manager (Some (Json (JObj record_A1))) [] [] RUNNING record_A1 in
  let s := run (frame None (saveTokensInternal dirname_posix tokens)) w in
  truthy (tokens !! "access_token") = false
  ∧ s.1 = Err (Error "Token verification failed, invalid token format")
  ∧ files (env s.2) !! tokenPath (this w)
    = files (env w) !! tokenPath (this w).
Proof.
  intros tokens w s. split; [reflexivity|].
  split; apply (rejected_save_leaves_nothing dirname_posix w tokens);
    reflexivity.
Defined.

(** A save whose rename fails with EPERM on the three attempts. *)
Lemma save_falls_back_to_copy_witness :
  let w := manager (Some (Json (JObj record_A1))) rename_fails [] RUNNING ∅ in
  let s := run (frame None (saveTokensInternal dirname_posix record_A2)) w in
  faults (env w)
  = [None; None; None; None; Some "EPERM"; Some "EPERM"; Some "EPERM"]
  ∧ s.1 = Ok tt
  ∧ clock (env s.2) = (clock (env w) + 300 + 300)%Z.
Proof.
  intros w s. split; [reflexivity|].
  split;
    apply (save_falls_back_to_copy dirname_posix w record_A2
             "EPERM" "EPERM" "EPERM");
    reflexivity.
Defined.

(** A refresh over a token file that is not JSON. *)
Lemma refresh_merge_edges_witness :
  let w := manager (Some (Garbage "not json")) [] [] RUNNING ∅ in
  let r := run (frame None (refreshTokensInternal dirname_posix record_A2))
             w in
  files (env w) !! tokenPath (this w) = Some (Garbage "not json")
  ∧ r.1 = Ok tt
  ∧ files (env r.2) !! tokenPath (this w) = Some (JSON_stringify record_A2).
Proof.
  intros w r. split; [reflexivity|].
  destruct (refresh_merge_edges dirname_posix w record_A2)
    as (H1 & H2 & _); [reflexivity|reflexivity|reflexivity|].
  split; [exact H1|]. apply (H2 "not json"). reflexivity.
Defined.

(** A refresh that brings [A2] while the memory holds [A1]. *)
Lemma refresh_leaves_nothing_behind_witness :
  let w := manager (Some (Json (JObj record_A1))) [] [] RUNNING record_A1 in
  let r := run (frame None (refreshTokensInternal dirname_posix record_A2))
             w in
  shutdownPhase (this w) = RUNNING
  ∧ credentials (oauth2Client (this r.2)) = record_A1
  ∧ locks (fileLock (this r.2)) = [].
Proof.
  intros w r. split; [reflexivity|].
  split; apply (refresh_leaves_nothing_behind dirname_posix w record_A2);
    reflexivity.
Defined.

(** A load that is invoked while the manager prepares to shut down. *)
Lemma rejected_load_still_runs_witness :
  let w := manager (Some (Json (JObj record_A1))) [] [] PREPARING ∅ in
  let s := sys_run [Invoke (void (loadSavedTokens dirname_posix));
                    Resume 1; Resume 1; Resume 1]
             {| world := w; tasks := [] |} in
  shutdownPhase (this w) ≠ RUNNING
  ∧ tasks s = [Throw (shutting_down "load-tokens" PREPARING); Ret tt]
  ∧ credentials (oauth2Client (this (world s))) = record_A1.
Proof.
  intros w s. split; [discriminate|].
  split;
    apply (rejected_load_still_runs dirname_posix w (JObj record_A1));
    first [discriminate|reflexivity].
Defined.

(** The listener is called while the manager is running. *)
Lemma tokenListener_starts_a_refresh_witness :
  let w := manager None [] [] RUNNING ∅ in
  let s := settle (tokenListener_call dirname_posix record_A2) tt w in
  shutdownPhase (this w) = RUNNING
  ∧ JsMap.get ("token-refresh-" +:+ pretty (clock (env w)))
      (pendingOperations (this s.1.2))
    = Some 0.
Proof.
  intros w s. split; [reflexivity|].
  destruct (tokenListener_starts_a_refresh dirname_posix w record_A2)
    as (_ & _ & H).
  apply H. reflexivity.
Defined.

(** Two loads that take turns over the record [A1]. *)
Lemma loads_change_no_file_witness :
  let w := manager (Some (Json (JObj record_A1))) [] [] RUNNING ∅ in
  faults (env w) = []
  ∧ saves two_loads = 0
  ∧ core (world (sys_run (act dirname_posix record_A2 <$> two_loads)
                   {| world := w; tasks := [] |}))
    = core w.
Proof.
  intros w. split; [reflexivity|]. split; [reflexivity|].
  apply (loads_change_no_file dirname_posix record_A2 w two_loads);
    reflexivity.
Defined.
